(** * Conformer generation, duplicate filtering and refinement

    A shallow embedding of the conformer pipeline of
    [DBGEN/db_gen_functions.py]: the sampler ([auto_sampling]), the
    embedding adapter ([embed_conf]), the minimisation stage with its
    two-stage duplicate filter ([min_after_embed]), the recursive torsion
    enumerator ([genConformer_r]), the filter after rotation
    ([filter_after_rotation]), the refinement stage ([optimize],
    [mult_min]) and the orchestration ([summ_search],
    [conformer_generation]).

    Modelling conventions.
    - Python floats are modelled by exact rationals ([Q]); a comparison
      [a < b] of the source is [Qltb a b].
    - The chemistry toolkit (RDKit, ASE, xTB, ANI) is not part of the
      repository: its operations are the fields of the class [Toolkit],
      and every definition and theorem is parametric in it.
    - Python objects that are mutated in place (the molecule, the list
      [outmols], the SD writers, the log, the row of [dup_data]) are
      threaded explicitly; exceptions are the [Raise] results of [result]. *)

From Stdlib Require Import String DecimalString.
From Stdlib Require Import QArith Qabs Qround ZArith List Bool Lia Lqa.
From Stdlib Require Import Permutation Sorted.
Import ListNotations.

Set Implicit Arguments.

(** ** Python values and control *)

Module Py.

(** The exceptions the embedded functions can leave through. *)
Inductive exn : Set :=
| SystemExit (code : option Z)
| UnboundLocalError (var : string)
| IndexError
| KeyError (key : string)
| ValueError
| TypeError
| ZeroDivisionError
| OSError (file : string).

(** A computation returns, raises, or is cut off by the fuel that bounds
    a [while] loop of the source. *)
Inductive result (A : Type) : Type :=
| Ok (a : A)
| Raise (e : exn)
| OutOfFuel.

Arguments Ok {A} a.
Arguments Raise {A} e.
Arguments OutOfFuel {A}.

Definition bind {A B : Type} (r : result A) (k : A -> result B) : result B :=
  match r with
  | Ok a => k a
  | Raise e => Raise e
  | OutOfFuel => OutOfFuel
  end.

(** [a < b] on floats. *)
Definition Qltb (a b : Q) : bool :=
  (Qnum a * QDen b <? Qnum b * QDen a)%Z.

(** [abs(a - b)] *)
Definition E_diff (a b : Q) : Q := Qabs (a - b).

(** [l[i]] for a non-negative index. *)
Definition index {A : Type} (l : list A) (i : nat) : result A :=
  match nth_error l i with
  | Some a => Ok a
  | None => Raise IndexError
  end.

(** [l[i] = a] for a non-negative index. *)
Fixpoint setitem {A : Type} (l : list A) (i : nat) (a : A) : result (list A) :=
  match l, i with
  | [], _ => Raise IndexError
  | _ :: l', O => Ok (a :: l')
  | x :: l', S i' =>
      match setitem l' i' a with
      | Ok r => Ok (x :: r)
      | Raise e => Raise e
      | OutOfFuel => OutOfFuel
      end
  end.

(** [x in l] for a list of integers. *)
Definition contains (x : nat) (l : list nat) : bool :=
  existsb (Nat.eqb x) l.

(** [enumerate(l)] *)
Definition enumerate {A : Type} (l : list A) : list (nat * A) :=
  combine (seq 0 (length l)) l.

(** [sorted(l, key=...)]: the keys are computed first, and the sort is
    stable, so it is the insertion of each item, in input order, behind
    every item whose key is not greater. *)
Fixpoint insert_by {A : Type} (kx : Q * A) (l : list (Q * A)) : list (Q * A) :=
  match l with
  | [] => [kx]
  | ky :: l' =>
      if Qltb (fst kx) (fst ky) then kx :: ky :: l'
      else ky :: insert_by kx l'
  end.

Definition sort_decorated {A : Type} (l : list (Q * A)) : list (Q * A) :=
  fold_left (fun acc kx => insert_by kx acc) l [].

(** [for x in l: body], with an accumulator and exceptions. *)
Fixpoint for_each {A S : Type} (l : list A) (body : A -> S -> result S)
         (s : S) : result S :=
  match l with
  | [] => Ok s
  | x :: l' => bind (body x s) (for_each l' body)
  end.

End Py.

Import Py.

Declare Scope py_scope.
Delimit Scope py_scope with py.
Notation "x <- c ;; k" := (Py.bind c (fun x => k))
  (at level 61, c at next level, right associativity) : py_scope.
Notation "' p <- c ;; k" := (Py.bind c (fun x => let 'p := x in k))
  (at level 61, p pattern, c at next level, right associativity) : py_scope.
Open Scope py_scope.
Open Scope Q_scope.

(** ** Configuration, toolkit and program state *)

(** [args.ff] is a string; two values are recognised. *)
Inductive FFname : Set :=
| MMFF
| UFF
| OtherFF (s : string).

(** [args.sample] is either ['auto'] or a number. *)
Inductive Sample : Set :=
| SampleAuto
| SampleN (n : Z).

(** The two refinement programs [mult_min] is called with, and any other
    string. *)
Inductive Program : Set :=
| ani
| xtb
| OtherProgram (s : string).

(** A dihedral is the 4-tuple of atom indices [(a, b, c, d)]. *)
Definition dihedral : Set := (nat * nat * nat * nat)%type.

(** The options read from [args].  [ff] is the configured force field;
    the attributes the pipeline assigns while it runs ([args.ff],
    [args.charge]) live in the program state below. *)
Record Args : Set := {
  verbose : bool;
  sample : Sample;
  auto_sample : Z;
  seed : Z;
  ff : FFname;
  opt_steps_RDKit : Z;
  max_torsions : Z;
  max_MolWt : Q;
  nodihedrals : bool;
  degree : Q;
  initial_energy_threshold : Q;
  energy_threshold : Q;
  rms_threshold : Q;
  heavyonly : bool;
  max_matches_RMSD : Z;
  ewin : Q;
  ANI1ccx : bool;
  xtb_on : bool;
  opt_steps : nat;
  opt_fmax : Q;
  metal_complex : bool;
  metal_idx : list nat;
  metal_sym : list string;
  nci_complex : bool;
  time_on : bool;
  input_ext : string;
  output : string
}.

(** Keyword arguments of [rdDistGeom.EmbedMultipleConfs]. *)
Record EmbedParams (CoordMap : Type) : Type := {
  ignoreSmoothingFailures : bool;
  randomSeed : Z;
  useRandomCoords : bool;
  boxSizeMult : option Q;
  numZeroFail : option Z;
  coordMap : option CoordMap;
  numThreads : Z
}.

(** What the external engines do.  [mol] is an RDKit molecule with its
    conformers; a call that mutates its argument in place returns the new
    value. *)
Class Toolkit : Type := {
  mol : Type;
  CoordMap : Type;
  AlgMap : Type;
  (* descriptors *)
  MolWt : mol -> Q;
  NumRotatableBonds : mol -> Z;
  NHOHCount : mol -> Z;
  NumSaturatedRings : mol -> Z;
  (* atoms, by index *)
  GetNumAtoms : mol -> nat;
  GetSymbol : mol -> nat -> string;
  GetAtomicNum : mol -> nat -> Z;
  SetAtomicNum : mol -> nat -> Z -> mol;
  (* graph *)
  SanitizeMol : mol -> mol;
  AddHs : mol -> mol;
  RemoveHs : mol -> mol;
  (* matches of the "strict" rotatable-bond pattern *)
  GetSubstructMatches : mol -> list dihedral;
  GetSubstructMatch : mol -> mol -> list nat;
  (* embedding: the new molecule and the conformer ids *)
  EmbedMultipleConfs : mol -> Z -> EmbedParams CoordMap -> mol * list nat;
  (* force field of a family on one conformer: Initialize, Minimize(maxIts) *)
  FF_Minimize : FFname -> mol -> nat -> Z -> mol;
  FF_CalcEnergy : FFname -> mol -> nat -> Q;
  (* force field with the template's distance constraints: one Minimize()
     call, which tells whether more steps are needed *)
  Distance : CoordMap -> nat -> nat -> Q;
  FF_MinimizeConstrained :
    FFname -> list (nat * nat * Q * Q * Q) -> mol -> nat -> mol * bool;
  FF_CalcEnergyConstrained :
    FFname -> list (nat * nat * Q * Q * Q) -> mol -> nat -> Q;
  AlignMol : mol -> mol -> nat -> AlgMap -> mol;
  (* geometry *)
  SetDihedralDeg : mol -> nat -> dihedral -> Q -> mol;
  GetBestRMS : mol -> mol -> Z -> Z -> Z -> Q;
  (* the molecule RDKit parses back from the SD record written for
     conformer [confId] of a molecule, when it can *)
  ParseRecord : mol -> Z -> option mol;
  (* charge rules for metal complexes *)
  rules_get_charge : mol -> Args -> list Z;
  (* the BFGS run of a refinement program on the first conformer: the
     number of frames in the trajectory it writes, the final positions
     written into the molecule, and the energy in kcal/mol there and at
     the starting positions *)
  BFGS_frames : Program -> mol -> Args -> nat;
  BFGS_positions : Program -> mol -> Args -> mol;
  SQM_energy : Program -> mol -> Q
}.

(** The columns of the summary table [dup_data] the pipeline writes. *)
Inductive Column : Set :=
| Molecule
| RDKIT_Initial_samples
| RDKit_energy_duplicates
| RDKit_RMSD_and_energy_duplicates
| RDKIT_Unique_conformers
| RDKIT_Rotated_conformers
| RDKIT_Rotated_Unique_conformers
| xTB_Initial_samples
| xTB_initial_energy_threshold
| xTB_RMSD_and_energy_duplicates
| xTB_Unique_conformers
| ANI1ccx_Initial_samples
| ANI1ccx_initial_energy_threshold
| ANI1ccx_RMSD_and_energy_duplicates
| ANI1ccx_Unique_conformers
| time_seconds
| Overall_charge.

Inductive Cell : Set :=
| CStr (s : string)
| CInt (z : Z)
| CNum (q : Q).

Definition Column_eqb (a b : Column) : bool :=
  match a, b with
  | Molecule, Molecule
  | RDKIT_Initial_samples, RDKIT_Initial_samples
  | RDKit_energy_duplicates, RDKit_energy_duplicates
  | RDKit_RMSD_and_energy_duplicates, RDKit_RMSD_and_energy_duplicates
  | RDKIT_Unique_conformers, RDKIT_Unique_conformers
  | RDKIT_Rotated_conformers, RDKIT_Rotated_conformers
  | RDKIT_Rotated_Unique_conformers, RDKIT_Rotated_Unique_conformers
  | xTB_Initial_samples, xTB_Initial_samples
  | xTB_initial_energy_threshold, xTB_initial_energy_threshold
  | xTB_RMSD_and_energy_duplicates, xTB_RMSD_and_energy_duplicates
  | xTB_Unique_conformers, xTB_Unique_conformers
  | ANI1ccx_Initial_samples, ANI1ccx_Initial_samples
  | ANI1ccx_initial_energy_threshold, ANI1ccx_initial_energy_threshold
  | ANI1ccx_RMSD_and_energy_duplicates, ANI1ccx_RMSD_and_energy_duplicates
  | ANI1ccx_Unique_conformers, ANI1ccx_Unique_conformers
  | time_seconds, time_seconds
  | Overall_charge, Overall_charge => true
  | _, _ => false
  end.

(** The two trajectory files of the refinement stage. *)
Inductive Traj : Set :=
| xTB_opt_traj
| ANI1_opt_traj.

(** One [log.write] site each. *)
Inductive LogMsg : Set :=
| Log_molecule_header (name : string)
| Log_no_dihedrals_found (p : Program)
| Log_invalid_structure
| Log_execution_time (t : Q)
| Log_atom_not_in_table
| Log_molar_mass_exceeded (limit : Q)
| Log_ff_not_supported (f : FFname)
| Log_embed_failed_trying_random (initial_confs : Z)
| Log_initially_generated (n : nat)
| Log_filters_after_embedding (initial_confs : Z)
| Log_prefilter_duplicates (eng_dup : Z) (threshold : Q)
| Log_removing_duplicates (rms energy : Q)
| Log_rms_duplicates (eng_rms_dup : Z) (rms energy : Q)
| Log_unique_remain (n : nat)
| Log_systematic_generation (n_confs : Z)
| Log_total_generated (total : Z)
| Log_could_not_open (file : string)
| Log_too_many_torsions (n : nat) (file : string)
| Log_optimizing_initial (n : nat) (f : FFname)
| Log_found_torsions (n : nat)
| Log_torsion_rotation_off
| Log_program_not_defined
| Log_charge_read_from_com
| Log_multiple_minimization (file : string) (p : Program)
| Log_high_energy_rejected (n_high : Z) (ewin : Q)
| Log_writing_conformers (n : Z) (file : string)
| Log_no_conformers_found.

Section Pipeline.

Context {TK : Toolkit}.

(** A molecule object with the two properties the pipeline sets and
    reads: [_Name] and [Energy] ([PropertyMol] keeps them on copy). *)
Record molobj : Type := {
  geom : mol;
  prop_Name : option string;
  prop_Energy : option Q
}.

Definition with_geom (m : molobj) (g : mol) : molobj :=
  {| geom := g; prop_Name := prop_Name m; prop_Energy := prop_Energy m |}.

(** [m.SetProp('_Name', s)] and [m.SetProp('Energy', e)] *)
Definition SetProp_Name (m : molobj) (s : string) : molobj :=
  {| geom := geom m; prop_Name := Some s; prop_Energy := prop_Energy m |}.

Definition SetProp_Energy (m : molobj) (e : Q) : molobj :=
  {| geom := geom m; prop_Name := prop_Name m; prop_Energy := Some e |}.

(** [m.GetProp(...)] raises [KeyError] on a property that is not set. *)
Definition GetProp_Name (m : molobj) : result string :=
  match prop_Name m with
  | Some s => Ok s
  | None => Raise (KeyError "_Name")
  end.

Definition GetProp_Energy (m : molobj) : result Q :=
  match prop_Energy m with
  | Some e => Ok e
  | None => Raise (KeyError "Energy")
  end.

(** What [sdwriter.write(mol, confId)] puts in the file: the molecule
    as it is at the time of the call, with its properties. *)
Record SDRecord : Type := {
  rec_obj : molobj;
  rec_confId : Z
}.

(** The program state: the attributes of [args] that are assigned
    ([args.ff], [args.charge]), the log, the row of [dup_data] of this
    molecule, the SD files by path, the trajectory files by name (the
    number of frames they hold), and the calls of the embedding engine
    so far, in order. *)
Record World : Type := {
  args_ff : FFname;
  args_charge : list Z;
  log : list LogMsg;
  dup_row : Column -> option Cell;
  files : string -> option (list SDRecord);
  traj : Traj -> option nat;
  embed_calls : list (Z * EmbedParams CoordMap)
}.

Definition set_args_ff (f : FFname) (w : World) : World :=
  {| args_ff := f; args_charge := args_charge w; log := log w;
     dup_row := dup_row w; files := files w; traj := traj w;
     embed_calls := embed_calls w |}.

Definition set_args_charge (c : list Z) (w : World) : World :=
  {| args_ff := args_ff w; args_charge := c; log := log w;
     dup_row := dup_row w; files := files w; traj := traj w;
     embed_calls := embed_calls w |}.

(** [log.write(msg)] *)
Definition log_write (msg : LogMsg) (w : World) : World :=
  {| args_ff := args_ff w; args_charge := args_charge w;
     log := log w ++ [msg];
     dup_row := dup_row w; files := files w; traj := traj w;
     embed_calls := embed_calls w |}.

(** [if args.verbose: log.write(msg)] *)
Definition log_verbose (args : Args) (msg : LogMsg) (w : World) : World :=
  if verbose args then log_write msg w else w.

(** [dup_data.at[dup_data_idx, col] = v] *)
Definition dup_data_at (col : Column) (v : Cell) (w : World) : World :=
  {| args_ff := args_ff w; args_charge := args_charge w; log := log w;
     dup_row := fun c => if Column_eqb c col then Some v else dup_row w c;
     files := files w; traj := traj w; embed_calls := embed_calls w |}.

Definition set_file (path : string) (content : option (list SDRecord))
           (w : World) : World :=
  {| args_ff := args_ff w; args_charge := args_charge w; log := log w;
     dup_row := dup_row w;
     files := fun p => if String.eqb p path then content else files w p;
     traj := traj w; embed_calls := embed_calls w |}.

(** [Chem.SDWriter(path)] creates the file, or empties it. *)
Definition SDWriter (path : string) (w : World) : World :=
  set_file path (Some []) w.

(** [sdwriter.write(m, confId)] on the writer of [path]. *)
Definition sd_write (path : string) (m : molobj) (confId : Z) (w : World)
  : World :=
  match files w path with
  | Some recs =>
      set_file path (Some (recs ++ [{| rec_obj := m; rec_confId := confId |}])) w
  | None =>
      set_file path (Some [{| rec_obj := m; rec_confId := confId |}]) w
  end.

(** [Chem.SDMolSupplier(path, removeHs=False)]: one entry per record,
    [None] for a record that does not parse. *)
Definition SDMolSupplier (path : string) (w : World)
  : result (list (option molobj)) :=
  match files w path with
  | Some recs =>
      Ok (map (fun r =>
                 match ParseRecord (geom (rec_obj r)) (rec_confId r) with
                 | Some g => Some (with_geom (rec_obj r) g)
                 | None => None
                 end) recs)
  | None => Raise (OSError path)
  end.

Definition set_traj (t : Traj) (frames : option nat) (w : World) : World :=
  {| args_ff := args_ff w; args_charge := args_charge w; log := log w;
     dup_row := dup_row w; files := files w;
     traj := fun t' => match t, t' with
                       | xTB_opt_traj, xTB_opt_traj
                       | ANI1_opt_traj, ANI1_opt_traj => frames
                       | _, _ => traj w t'
                       end;
     embed_calls := embed_calls w |}.

Definition record_embed_call (n : Z) (p : EmbedParams CoordMap) (w : World)
  : World :=
  {| args_ff := args_ff w; args_charge := args_charge w; log := log w;
     dup_row := dup_row w; files := files w; traj := traj w;
     embed_calls := embed_calls w ++ [(n, p)] |}.

(** The state a molecule starts from. *)
Definition init_world (args : Args) : World :=
  {| args_ff := ff args; args_charge := [];
     log := []; dup_row := fun _ => None; files := fun _ => None;
     traj := fun _ => None; embed_calls := [] |}.


(** ** Small helpers of the source *)

Definition possible_atoms : list string :=
  [""; "H"; "He"; "Li"; "Be"; "B"; "C"; "N"; "O"; "F"; "Ne"; "Na"; "Mg"; "Al"; "Si";
   "P"; "S"; "Cl"; "Ar"; "K"; "Ca"; "Sc"; "Ti"; "V"; "Cr"; "Mn"; "Fe"; "Co"; "Ni"; "Cu"; "Zn";
   "Ga"; "Ge"; "As"; "Se"; "Br"; "Kr"; "Rb"; "Sr"; "Y"; "Zr"; "Nb"; "Mo"; "Tc"; "Ru"; "Rh"; "Pd";
   "Ag"; "Cd"; "In"; "Sn"; "Sb"; "Te"; "I"; "Xe"; "Cs"; "Ba"; "La"; "Ce"; "Pr"; "Nd"; "Pm"; "Sm";
   "Eu"; "Gd"; "Tb"; "Dy"; "Ho"; "Er"; "Tm"; "Yb"; "Lu"; "Hf"; "Ta"; "W"; "Re"; "Os"; "Ir"; "Pt";
   "Au"; "Hg"; "Tl"; "Pb"; "Bi"; "Po"; "At"; "Rn"; "Fr"; "Ra"; "Ac"; "Th"; "Pa"; "U"; "Np"; "Pu";
   "Am"; "Cm"; "Bk"; "Cf"; "Es"; "Fm"; "Md"; "No"; "Lr"; "Rf"; "Db"; "Sg"; "Bh"; "Hs"; "Mt"; "Ds";
   "Rg"; "Uub"; "Uut"; "Uuq"; "Uup"; "Uuh"; "Uus"; "Uuo"]%string.

(** [l.index(x)]: the first position of [x], [ValueError] without one. *)
Fixpoint list_index {A : Type} (eqb : A -> A -> bool) (x : A) (l : list A)
  : result nat :=
  match l with
  | [] => Raise ValueError
  | y :: l' =>
      if eqb x y then Ok O
      else k <- list_index eqb x l' ;; Ok (S k)
  end.

(** The block that puts the metal back in place of the iodine: for each
    atom whose index is in [args.metal_idx], in index order. *)
Definition set_metal_back (args : Args) (g : mol) : result mol :=
  for_each (seq 0 (GetNumAtoms g))
    (fun idx g =>
       if contains idx (metal_idx args) then
         k <- list_index Nat.eqb idx (metal_idx args) ;;
         re_symbol <- index (metal_sym args) k ;;
         atomic_number <- list_index String.eqb re_symbol possible_atoms ;;
         Ok (SetAtomicNum g idx (Z.of_nat atomic_number))
       else Ok g)
    g.

(** [get_conf_RMS(mol1, mol2, c1, c2, heavy, max_matches_RMSD, log)] *)
Definition get_conf_RMS (mol1 mol2 : mol) (c1 c2 : Z) (heavy : bool)
           (max_matches : Z) : Q :=
  let mol1 := if heavy then RemoveHs mol1 else mol1 in
  let mol2 := if heavy then RemoveHs mol2 else mol2 in
  GetBestRMS mol1 mol2 c1 c2 max_matches.

(** ** Sampler *)

(** [auto_sampling(mult_factor, mol, args, log)] *)
Definition auto_sampling (mult_factor : Z) (m : mol) (args : Args) : Z :=
  let mult_factor :=
    if metal_complex args then
      if (0 <? Z.of_nat (length (metal_idx args)))%Z
      then (mult_factor * 3 * Z.of_nat (length (metal_idx args)))%Z
      else mult_factor
    else mult_factor in
  let auto_samples := 0%Z in
  let auto_samples := (auto_samples + 3 * NumRotatableBonds m)%Z in
  let auto_samples := (auto_samples + 3 * NHOHCount m)%Z in
  let auto_samples := (auto_samples + 3 * NumSaturatedRings m)%Z in
  if (auto_samples =? 0)%Z then mult_factor
  else (mult_factor * auto_samples)%Z.

(** ** Rotatable bonds *)

(** [getDihedralMatches(mol, heavy, log)]: the matches of the pattern,
    one per central bond. *)
Definition pair_in (bc : nat * nat) (seen : list (nat * nat)) : bool :=
  existsb (fun p => Nat.eqb (fst p) (fst bc) && Nat.eqb (snd p) (snd bc)) seen.

Fixpoint uniquify (m : mol) (heavy : bool) (matches : list dihedral)
         (seen : list (nat * nat)) (uniqmatches : list dihedral)
  : list dihedral :=
  match matches with
  | [] => uniqmatches
  | (a, b, c, d) :: rest =>
      if negb (pair_in (b, c) seen) && negb (pair_in (c, b) seen) then
        if heavy then
          if negb (String.eqb (GetSymbol m a) "H")
             && negb (String.eqb (GetSymbol m d) "H")
          then uniquify m heavy rest ((b, c) :: seen) (uniqmatches ++ [(a, b, c, d)])
          else uniquify m heavy rest seen uniqmatches
        else
          if String.eqb (GetSymbol m c) "C" && String.eqb (GetSymbol m d) "H"
          then uniquify m heavy rest seen uniqmatches
          else uniquify m heavy rest ((b, c) :: seen) (uniqmatches ++ [(a, b, c, d)])
      else uniquify m heavy rest seen uniqmatches
  end.

Definition getDihedralMatches (m : mol) (heavy : bool) : list dihedral :=
  uniquify m heavy (GetSubstructMatches m) [] [].

(** ** Structure filter *)

(** [filters(mol, args, log)] *)
Definition filters (m : mol) (args : Args) (w : World) : bool * World :=
  if Qltb (MolWt m) (max_MolWt args) then
    fold_left
      (fun (acc : bool * World) idx =>
         if existsb (String.eqb (GetSymbol m idx)) possible_atoms then acc
         else (false, log_verbose args Log_atom_not_in_table (snd acc)))
      (seq 0 (GetNumAtoms m)) (true, w)
  else (false, log_verbose args (Log_molar_mass_exceeded (max_MolWt args)) w).

(** ** Embedding adapter *)

(** The keyword arguments of the first call and of the retry. *)
Definition standard_params (args : Args) (coord_Map : option CoordMap)
  : EmbedParams CoordMap :=
  {| ignoreSmoothingFailures := true; randomSeed := seed args;
     useRandomCoords := false; boxSizeMult := None; numZeroFail := None;
     coordMap := coord_Map; numThreads := 0%Z |}.

Definition random_coords_params (args : Args) (coord_Map : option CoordMap)
  : EmbedParams CoordMap :=
  {| ignoreSmoothingFailures := true; randomSeed := seed args;
     useRandomCoords := true; boxSizeMult := Some 10;
     numZeroFail := Some 1000%Z;
     coordMap := coord_Map; numThreads := 0%Z |}.

(** A call of [rdDistGeom.EmbedMultipleConfs], entered in the trace. *)
Definition call_embed (g : mol) (n : Z) (p : EmbedParams CoordMap) (w : World)
  : mol * list nat * World :=
  (EmbedMultipleConfs g n p, record_embed_call n p w).

(** [len(cids) == 0 or len(cids) == 1 and initial_confs != 1] *)
Definition embedding_failed (cids : list nat) (initial_confs : Z) : bool :=
  (length cids =? 0)%nat
  || ((length cids =? 1)%nat && negb (initial_confs =? 1)%Z).

(** [embed_conf(mol, initial_confs, args, log, coord_Map, alg_Map,
    mol_template)]: the conformer ids, and the molecule that holds the
    conformers. *)
Definition embed_conf (g : mol) (initial_confs : Z) (args : Args)
           (coord_Map : option CoordMap) (alg_Map : option AlgMap)
           (mol_template : option mol) (w : World)
  : list nat * mol * World :=
  match coord_Map, alg_Map, mol_template with
  | None, None, None =>
      let '(g, cids, w) := call_embed g initial_confs (standard_params args None) w in
      let '(g, cids, w) :=
        if embedding_failed cids initial_confs then
          let w := log_write (Log_embed_failed_trying_random initial_confs) w in
          call_embed g initial_confs (random_coords_params args None) w
        else (g, cids, w) in
      let w := log_verbose args (Log_initially_generated (length cids)) w in
      (cids, g, w)
  | _, _, _ =>
      (* case of embed for templates *)
      let '(g, cids, w) :=
        call_embed g initial_confs (standard_params args coord_Map) w in
      let '(g, cids, w) :=
        if embedding_failed cids initial_confs then
          let w := log_write (Log_embed_failed_trying_random initial_confs) w in
          call_embed g initial_confs (random_coords_params args coord_Map) w
        else (g, cids, w) in
      let w := log_verbose args (Log_initially_generated (length cids)) w in
      (cids, g, w)
  end.

(** ** Torsion enumerator *)

(** [str(n)] *)
Definition str (n : nat) : string :=
  DecimalString.NilZero.string_of_uint (Nat.to_uint n).

(** The loop [deg = 0; while deg < 360.0: ...; deg += degree] of
    [genConformer_r], with the running [total]; [body] is one pass
    through the loop at angle [deg] and returns what it adds to
    [total].  [fuel] bounds the number of tests of the loop condition. *)
Fixpoint dihedral_loop {S : Type} (fuel : nat)
         (body : Q -> S -> result (Z * S)) (degree deg : Q) (total : Z)
         (s : S) : result (Z * S) :=
  match fuel with
  | O => OutOfFuel
  | Datatypes.S fuel' =>
      if Qltb deg 360 then
        '(n, s') <- body deg s ;;
        dihedral_loop fuel' body degree (deg + degree) (total + n)%Z s'
      else Ok (total, s)
  end.

(** [genConformer_r(mol, conf, i, matches, degree, sdwriter, args, name,
    log)].  The list argument is [matches[i:]], so the base case
    [i >= len(matches)] is the empty list and the recursive call at
    [i + 1] is the call on the tail.  The molecule object is mutated in
    place: the geometry a deeper call leaves behind is the one the next
    angle starts from. *)
Fixpoint genConformer_r (fuel : nat) (sdwriter : string) (args : Args)
         (name : string) (degree : Q) (conf : nat)
         (matches_from_i : list dihedral) (s : molobj * World)
  : result (Z * (molobj * World)) :=
  match matches_from_i with
  | [] =>
      (* base case, torsions should be set in conf *)
      let '(m, w) := s in
      g <- (if metal_complex args && nodihedrals args
            then set_metal_back args (geom m)
            else Ok (geom m)) ;;
      let m := with_geom m g in
      Ok (1%Z, (m, sd_write sdwriter m (Z.of_nat conf) w))
  | matches_i :: rest =>
      dihedral_loop fuel
        (fun deg s =>
           let '(m, w) := s in
           let g := SetDihedralDeg (geom m) conf matches_i deg in
           (* recalculating energies after rotation *)
           match args_ff w with
           | OtherFF _ => Raise (SystemExit None)
           | family =>
               let g := FF_Minimize family g conf (opt_steps_RDKit args) in
               let energy := FF_CalcEnergy family g conf in
               let m := SetProp_Energy (with_geom m g) energy in
               let m := SetProp_Name m name in
               genConformer_r fuel sdwriter args name degree conf rest (m, w)
           end)
        degree 0 0%Z s
  end.

(** ** Minimisation stage and its duplicate filter *)

(** The distance constraints of the template case:
    [for k, idxI in enumerate(num_atom_match):
       for l in range(k + 1, len(num_atom_match)): ...] *)
Fixpoint template_constraints (coord_Map : CoordMap) (num_atom_match : list nat)
  : list (nat * nat * Q * Q * Q) :=
  match num_atom_match with
  | [] => []
  | idxI :: rest =>
      map (fun idxJ =>
             let d := Distance coord_Map idxI idxJ in
             (idxI, idxJ, d, d, 10000)) rest
      ++ template_constraints coord_Map rest
  end.

(** [while more and n: more = ff_temp.Minimize(); n -= 1] *)
Fixpoint minimize_more (family : FFname) (cons : list (nat * nat * Q * Q * Q))
         (conf : nat) (n : nat) (more : bool) (g : mol) : mol :=
  match n with
  | O => g
  | S n' =>
      if more then
        let '(g', more') := FF_MinimizeConstrained family cons g conf in
        minimize_more family cons conf n' more' g'
      else g
  end.

(** What the minimisation loop carries: the molecule, [cenergy],
    [outmols]. *)
Definition min_state : Type := (mol * list Q * list molobj)%type.

(** One pass of [for i, conf in enumerate(cids)] in the first loop of
    [min_after_embed]; [m] is the molecule object passed in, whose
    properties every [PropertyMol(mol)] copies. *)
Definition minimize_conf (m : molobj) (args : Args)
           (coord_Map : option CoordMap) (alg_Map : option AlgMap)
           (mol_template : option mol) (family : FFname) (conf : nat)
           (st : min_state) : result min_state :=
  let '(g, cenergy, outmols) := st in
  match coord_Map, alg_Map, mol_template with
  | None, None, None =>
      match family with
      | OtherFF _ => Raise (SystemExit None)
      | _ =>
          let g := FF_Minimize family g conf (opt_steps_RDKit args) in
          let energy := FF_CalcEnergy family g conf in
          Ok (g, cenergy ++ [energy], outmols ++ [with_geom m g])
      end
  | _, _, _ =>
      (* id template realign before doing calculations *)
      template <- match mol_template with
                  | Some t => Ok t
                  | None => Raise TypeError
                  end ;;
      let num_atom_match := GetSubstructMatch g template in
      match family with
      | OtherFF _ => Raise (SystemExit None)
      | _ =>
          cons <- match coord_Map with
                  | Some cm => Ok (template_constraints cm num_atom_match)
                  | None =>
                      if (length num_atom_match <=? 1)%nat then Ok []
                      else Raise TypeError
                  end ;;
          let '(g, more) := FF_MinimizeConstrained family cons g conf in
          let g := minimize_more family cons conf 10 more g in
          let energy := FF_CalcEnergyConstrained family cons g conf in
          am <- match alg_Map with
                | Some am => Ok am
                | None => Raise TypeError
                end ;;
          (* rotate the embedded conformation onto the core_mol *)
          let g := AlignMol g template conf am in
          Ok (g, cenergy ++ [energy], outmols ++ [with_geom m g])
      end
  end.

(** The second loop: names and energies on [outmols[cid]]. *)
Definition set_props (name : string) (cenergy : list Q) (ic : nat * nat)
           (outmols : list molobj) : result (list molobj) :=
  let '(i, cid) := ic in
  om <- index outmols cid ;;
  let om := SetProp_Name om (name ++ " conformer " ++ str (i + 1)) in
  energy <- index cenergy cid ;;
  setitem outmols cid (SetProp_Energy om energy).

(** [sorted(cids, key=lambda cid: cenergy[cid])] *)
Fixpoint decorate (cenergy : list Q) (cids : list nat) : result (list (Q * nat)) :=
  match cids with
  | [] => Ok []
  | cid :: rest =>
      e <- index cenergy cid ;;
      r <- decorate cenergy rest ;;
      Ok ((e, cid) :: r)
  end.

Definition sorted_by_energy (cenergy : list Q) (cids : list nat)
  : result (list nat) :=
  d <- decorate cenergy cids ;;
  Ok (map snd (sort_decorated d)).

(** *** Stage A: the pre-filter on energy *)

(** [for seenconf in selectedcids_initial]: whether the loop leaves
    through [break] with [excluded_conf = True]. *)
Fixpoint prefilter_seen (args : Args) (cenergy : list Q) (conf : nat)
         (seen : list nat) : result bool :=
  match seen with
  | [] => Ok false
  | seenconf :: rest =>
      e <- index cenergy conf ;;
      e' <- index cenergy seenconf ;;
      if Qltb (E_diff e e') (initial_energy_threshold args) then Ok true
      else prefilter_seen args cenergy conf rest
  end.

(** One pass of [for i, conf in enumerate(sortedcids)] on
    [(selectedcids_initial, eng_dup)]. *)
Definition prefilter_body (args : Args) (cenergy : list Q) (ic : nat * nat)
           (st : list nat * Z) : result (list nat * Z) :=
  let '(i, conf) := ic in
  let '(selectedcids_initial, eng_dup) := st in
  (* include the first conformer in the list to start the filtering process *)
  let selectedcids_initial :=
    if (i =? 0)%nat then selectedcids_initial ++ [conf]
    else selectedcids_initial in
  excluded_conf <- prefilter_seen args cenergy conf selectedcids_initial ;;
  if excluded_conf then Ok (selectedcids_initial, (eng_dup + 1)%Z)
  else if contains conf selectedcids_initial then Ok (selectedcids_initial, eng_dup)
  else Ok (selectedcids_initial ++ [conf], eng_dup).

Definition prefilter (args : Args) (cenergy : list Q) (sortedcids : list nat)
  : result (list nat * Z) :=
  for_each (enumerate sortedcids) (prefilter_body args cenergy) ([], (-1)%Z).

(** *** Stage B: energy and RMSD *)

(** [for m in rotmatches: SetDihedralDeg(outmols[conf].GetConformer(conf),
    *m, 180.0)] *)
Definition reset_torsions (rotmatches : list dihedral) (conf : nat)
           (outmols : list molobj) : result (list molobj) :=
  for_each rotmatches
    (fun m outmols =>
       om <- index outmols conf ;;
       setitem outmols conf
         (with_geom om (SetDihedralDeg (geom om) conf m 180)))
    outmols.

(** [for seenconf in selectedcids]: both conformers are read from the
    molecule object [outmols[conf]] of the candidate. *)
Fixpoint rms_seen (args : Args) (cenergy : list Q) (outmols : list molobj)
         (conf : nat) (seen : list nat) : result bool :=
  match seen with
  | [] => Ok false
  | seenconf :: rest =>
      e <- index cenergy conf ;;
      e' <- index cenergy seenconf ;;
      if Qltb (E_diff e e') (energy_threshold args) then
        om <- index outmols conf ;;
        let rms := get_conf_RMS (geom om) (geom om)
                     (Z.of_nat seenconf) (Z.of_nat conf)
                     (heavyonly args) (max_matches_RMSD args) in
        if Qltb rms (rms_threshold args) then Ok true
        else rms_seen args cenergy outmols conf rest
      else rms_seen args cenergy outmols conf rest
  end.

(** One pass of [for i, conf in enumerate(selectedcids_initial)] on
    [(selectedcids, eng_rms_dup, outmols)]. *)
Definition rmsfilter_body (args : Args) (rotmatches : list dihedral)
           (cenergy : list Q) (ic : nat * nat)
           (st : list nat * Z * list molobj)
  : result (list nat * Z * list molobj) :=
  let '(i, conf) := ic in
  let '(selectedcids, eng_rms_dup, outmols) := st in
  (* set torsions to same value *)
  outmols <- reset_torsions rotmatches conf outmols ;;
  let selectedcids :=
    if (i =? 0)%nat then selectedcids ++ [conf] else selectedcids in
  excluded_conf <- rms_seen args cenergy outmols conf selectedcids ;;
  if excluded_conf then Ok (selectedcids, (eng_rms_dup + 1)%Z, outmols)
  else if contains conf selectedcids then Ok (selectedcids, eng_rms_dup, outmols)
  else Ok (selectedcids ++ [conf], eng_rms_dup, outmols).

Definition rmsfilter (args : Args) (rotmatches : list dihedral)
           (cenergy : list Q) (selectedcids_initial : list nat)
           (outmols : list molobj)
  : result (list nat * Z * list molobj) :=
  for_each (enumerate selectedcids_initial)
    (rmsfilter_body args rotmatches cenergy) ([], (-1)%Z, outmols).

(** What the two stages hand on. *)
Record FilterOutcome : Type := {
  selectedcids_initial : list nat;
  selectedcids : list nat;
  eng_dup : Z;
  eng_rms_dup : Z;
  filtered_outmols : list molobj
}.

(** The duplicate filter of [min_after_embed]: both stages on a list of
    conformer ids. *)
Definition embed_filter (args : Args) (rotmatches : list dihedral)
           (cenergy : list Q) (outmols : list molobj) (cids : list nat)
  : result FilterOutcome :=
  '(sel_initial, eng_dup) <- prefilter args cenergy cids ;;
  '(sel, eng_rms_dup, outmols) <-
     rmsfilter args rotmatches cenergy sel_initial outmols ;;
  Ok {| selectedcids_initial := sel_initial; selectedcids := sel;
        eng_dup := eng_dup; eng_rms_dup := eng_rms_dup;
        filtered_outmols := outmols |}.

(** [int(x)] of a float: truncation towards zero. *)
Definition int_of_float (x : Q) : Z := Z.quot (Qnum x) (Zpos (Qden x)).

(** [int(len(selectedcids) * (360 / args.degree) ** len(rotmatches))] *)
Definition n_confs (args : Args) (selectedcids : list nat)
           (rotmatches : list dihedral) : result Z :=
  if Qeq_bool (degree args) 0 then Raise ZeroDivisionError
  else Ok (int_of_float
             (inject_Z (Z.of_nat (length selectedcids))
              * (360 / degree args) ^ Z.of_nat (length rotmatches))).

(** One pass of [for conf in selectedcids] in the enumeration loop, on
    [(total, outmols, world)]. *)
Definition enumerate_conf (fuel : nat) (sdwriter : string) (args : Args)
           (rotmatches : list dihedral) (conf : nat)
           (st : Z * list molobj * World) : result (Z * list molobj * World) :=
  let '(total, outmols, w) := st in
  om <- index outmols conf ;;
  name <- GetProp_Name om ;;
  '(n, (om, w)) <-
     genConformer_r fuel sdwriter args name (degree args) conf rotmatches (om, w) ;;
  outmols <- setitem outmols conf om ;;
  Ok ((total + n)%Z, outmols, w).

(** [min_after_embed(mol, cids, name, initial_confs, rotmatches, dup_data,
    dup_data_idx, sdwriter, coord_Map, alg_Map, mol_template, args, log)]:
    the status and the new state. *)
Definition min_after_embed (fuel : nat) (m : molobj) (cids : list nat)
           (name : string) (initial_confs : Z) (rotmatches : list dihedral)
           (sdwriter : string) (coord_Map : option CoordMap)
           (alg_Map : option AlgMap) (mol_template : option mol)
           (args : Args) (w : World) : result (Z * World) :=
  '(g, cenergy, outmols) <-
     for_each cids
       (minimize_conf m args coord_Map alg_Map mol_template (args_ff w))
       (geom m, [], []) ;;
  outmols <- for_each (enumerate cids) (set_props name cenergy) outmols ;;
  let cids := seq 0 (length outmols) in
  sortedcids <- sorted_by_energy cenergy cids ;;
  let w := log_write (Log_filters_after_embedding initial_confs) w in
  f <- embed_filter args rotmatches cenergy outmols sortedcids ;;
  let w := log_verbose args
             (Log_prefilter_duplicates (eng_dup f) (initial_energy_threshold args)) w in
  (* reduce to unique set *)
  let w := log_verbose args
             (Log_removing_duplicates (rms_threshold args) (energy_threshold args)) w in
  let w := log_verbose args
             (Log_rms_duplicates (eng_rms_dup f) (rms_threshold args)
                (energy_threshold args)) w in
  let w := log_verbose args (Log_unique_remain (length (selectedcids f))) w in
  let w := dup_data_at RDKit_energy_duplicates (CInt (eng_dup f)) w in
  let w := dup_data_at RDKit_RMSD_and_energy_duplicates (CInt (eng_rms_dup f)) w in
  let w := dup_data_at RDKIT_Unique_conformers
             (CInt (Z.of_nat (length (selectedcids f)))) w in
  (* writing charges after RDKIT *)
  let w := set_args_charge (rules_get_charge g args) w in
  let w := dup_data_at Overall_charge (CInt (fold_right Z.add 0%Z (args_charge w))) w in
  (* now exhaustively drive torsions of selected conformers *)
  n_confs <- n_confs args (selectedcids f) rotmatches ;;
  let w := if verbose args && negb (length rotmatches =? 0)%nat
           then log_write (Log_systematic_generation n_confs) w else w in
  '(total, outmols, w) <-
     for_each (selectedcids f) (enumerate_conf fuel sdwriter args rotmatches)
       (0%Z, filtered_outmols f, w) ;;
  let w := if verbose args && negb (length rotmatches =? 0)%nat
           then log_write (Log_total_generated total) w else w in
  let status := 1%Z in
  let w := dup_data_at RDKIT_Rotated_conformers (CInt total) w in
  Ok (status, w).

(** ** Filter after rotation *)

(** What the loop of [filter_after_rotation] carries.  An accepted
    molecule is kept with its position in the file, which stands for the
    identity of the Python object ([rd_mol_i not in rd_selectedcids]
    compares objects); [rd_written] is what went through
    [sdwriter_rd.write]. *)
Record RotState : Type := {
  rd_count : Z;
  rd_selectedcids : list (nat * molobj);
  rd_dup_energy : Z;
  rd_dup_rms_eng : Z;
  rd_written : list SDRecord
}.

Inductive Verdict : Set :=
| Unique
| EnergyDuplicate
| RmsDuplicate.

(** [for rd_mol_j in rd_selectedcids] *)
Fixpoint rotation_seen (args : Args) (rd_mol_i mol_rd : molobj)
         (seen : list (nat * molobj)) : result Verdict :=
  match seen with
  | [] => Ok Unique
  | (_, rd_mol_j) :: rest =>
      e_i <- GetProp_Energy rd_mol_i ;;
      e_j <- GetProp_Energy rd_mol_j ;;
      if Qltb (E_diff e_i e_j) (initial_energy_threshold args) then
        Ok EnergyDuplicate
      else if Qltb (E_diff e_i e_j) (energy_threshold args) then
        let rms := get_conf_RMS (geom mol_rd) (geom rd_mol_j) (-1) (-1)
                     (heavyonly args) (max_matches_RMSD args) in
        if Qltb rms (rms_threshold args) then Ok RmsDuplicate
        else rotation_seen args rd_mol_i mol_rd rest
      else rotation_seen args rd_mol_i mol_rd rest
  end.

(** The metal is put back on [mol_rd] just before it is written. *)
Definition write_rotated (args : Args) (mol_rd : molobj)
  : result (molobj * SDRecord) :=
  g <- (if metal_complex args then set_metal_back args (geom mol_rd)
        else Ok (geom mol_rd)) ;;
  let mol_rd := with_geom mol_rd g in
  Ok (mol_rd, {| rec_obj := mol_rd; rec_confId := (-1)%Z |}).

(** One pass of [for i, rd_mol_i in enumerate(rdmols)]. *)
Definition rotation_body (args : Args) (ir : nat * option molobj)
           (st : RotState) : result RotState :=
  let '(i, entry) := ir in
  rd_mol_i <- match entry with
              | Some o => Ok o
              | None => Raise TypeError
              end ;;
  name_i <- GetProp_Name rd_mol_i ;;
  let mol_rd := SetProp_Name rd_mol_i (name_i ++ " " ++ str i) in
  (* include the first conformer in the list to start the filtering process *)
  '(mol_rd, sel, written) <-
     (if (rd_count st =? 0)%Z then
        '(mol_rd, r) <- write_rotated args mol_rd ;;
        Ok (mol_rd, rd_selectedcids st ++ [(i, rd_mol_i)], rd_written st ++ [r])
      else Ok (mol_rd, rd_selectedcids st, rd_written st)) ;;
  (* Only the first ID gets included *)
  let rd_count := 1%Z in
  v <- rotation_seen args rd_mol_i mol_rd sel ;;
  match v with
  | EnergyDuplicate =>
      Ok {| rd_count := rd_count; rd_selectedcids := sel;
            rd_dup_energy := (rd_dup_energy st + 1)%Z;
            rd_dup_rms_eng := rd_dup_rms_eng st; rd_written := written |}
  | RmsDuplicate =>
      Ok {| rd_count := rd_count; rd_selectedcids := sel;
            rd_dup_energy := rd_dup_energy st;
            rd_dup_rms_eng := (rd_dup_rms_eng st + 1)%Z; rd_written := written |}
  | Unique =>
      if contains i (map fst sel) then
        Ok {| rd_count := rd_count; rd_selectedcids := sel;
              rd_dup_energy := rd_dup_energy st;
              rd_dup_rms_eng := rd_dup_rms_eng st; rd_written := written |}
      else
        '(_, r) <- write_rotated args mol_rd ;;
        Ok {| rd_count := rd_count; rd_selectedcids := sel ++ [(i, rd_mol_i)];
              rd_dup_energy := rd_dup_energy st;
              rd_dup_rms_eng := rd_dup_rms_eng st; rd_written := written ++ [r] |}
  end.

Definition rotation_init : RotState :=
  {| rd_count := 0%Z; rd_selectedcids := []; rd_dup_energy := (-1)%Z;
     rd_dup_rms_eng := 0%Z; rd_written := [] |}.

(** The loop of [filter_after_rotation] on the molecules of the file. *)
Definition rotation_filter (args : Args) (rdmols : list (option molobj))
  : result RotState :=
  for_each (enumerate rdmols) (rotation_body args) rotation_init.

(** [filter_after_rotation(args, name, log, dup_data, dup_data_idx)] *)
Definition filter_after_rotation (args : Args) (name : string) (w : World)
  : result (Z * World) :=
  rdmols <- SDMolSupplier (name ++ "_" ++ "rdkit" ++ output args) w ;;
  let sdwriter_rd := (name ++ "_" ++ "rdkit" ++ "_" ++ "rotated" ++ output args)%string in
  let w := SDWriter sdwriter_rd w in
  st <- rotation_filter args rdmols ;;
  let w := set_file sdwriter_rd (Some (rd_written st)) w in
  let w := log_verbose args
             (Log_prefilter_duplicates (rd_dup_energy st)
                (initial_energy_threshold args)) w in
  let w := log_verbose args
             (Log_rms_duplicates (rd_dup_rms_eng st) (rms_threshold args)
                (energy_threshold args)) w in
  let w := log_verbose args
             (Log_unique_remain (length (rd_selectedcids st))) w in
  (* filtering process after rotations *)
  let w := dup_data_at RDKIT_Rotated_Unique_conformers
             (CInt (Z.of_nat (length (rd_selectedcids st)))) w in
  let status := 1%Z in
  Ok (status, w).

(** ** Conformer search *)

(** [for atom in mol.GetAtoms(): if atom.GetAtomicNum() > 36:
    args.ff = "UFF"] *)
Definition choose_ff (g : mol) (w : World) : World :=
  fold_left
    (fun w idx => if (36 <? GetAtomicNum g idx)%Z then set_args_ff UFF w else w)
    (seq 0 (GetNumAtoms g)) w.

(** [int(args.sample)], or the automatic number of samples. *)
Definition initial_samples (g : mol) (args : Args) : Z :=
  match sample args with
  | SampleAuto => auto_sampling (auto_sample args) g args
  | SampleN n => n
  end.

(** [summ_search(mol, name, args, log, dup_data, dup_data_idx, coord_Map,
    alg_Map, mol_template)] *)
Definition summ_search (fuel : nat) (g : mol) (name : string) (args : Args)
           (coord_Map : option CoordMap) (alg_Map : option AlgMap)
           (mol_template : option mol) (w : World) : result (Z * World) :=
  let sdwriter := (name ++ "_" ++ "rdkit" ++ output args)%string in
  let w := SDWriter sdwriter w in
  let g := SanitizeMol g in
  let g := AddHs g in
  let m := {| geom := g; prop_Name := Some name; prop_Energy := None |} in
  (* detects and applies auto-detection of initial number of conformers *)
  let initial_confs := initial_samples g args in
  let w := dup_data_at Molecule (CStr name) w in
  let rotmatches := getDihedralMatches g (heavyonly args) in
  '(status, rotmatches, w) <-
     (if (max_torsions args <? Z.of_nat (length rotmatches))%Z then
        let w := log_write
                   (Log_too_many_torsions (length rotmatches)
                      (name ++ output args)) w in
        Ok ((-1)%Z, rotmatches, w)
      else
        let w := dup_data_at RDKIT_Initial_samples (CInt initial_confs) w in
        let rotmatches := if nodihedrals args then [] else rotmatches in
        let '(cids, g, w) :=
          embed_conf g initial_confs args coord_Map alg_Map mol_template w in
        (* energy minimize all to get more realistic results *)
        let w := choose_ff g w in
        let w := log_verbose args
                   (Log_optimizing_initial (length cids) (args_ff w)) w in
        let w := if nodihedrals args
                 then log_verbose args Log_torsion_rotation_off w
                 else log_verbose args (Log_found_torsions (length rotmatches)) w in
        '(status, w) <-
           min_after_embed fuel (with_geom m g) cids name initial_confs
             rotmatches sdwriter coord_Map alg_Map mol_template args w ;;
        Ok (status, rotmatches, w)) ;;
  if negb (status =? -1)%Z then
    (* getting the energy from and mols after rotations *)
    if negb (nodihedrals args) && negb (length rotmatches =? 0)%nat then
      filter_after_rotation args name w
    else if negb (nodihedrals args) && (length rotmatches =? 0)%nat then
      Ok (0%Z, w)
    else Ok (status, w)
  else Ok (status, w).

(** ** Refinement stage *)

Definition program_str (p : Program) : string :=
  match p with
  | ani => "ani"
  | xtb => "xtb"
  | OtherProgram s => s
  end.

(** [for atom in mol.GetAtoms(): if atom.GetSymbol() == 'I':
    atom.SetAtomicNum(1)] *)
Definition remove_iodine (g : mol) : mol :=
  fold_left
    (fun g' idx => if String.eqb (GetSymbol g' idx) "I" then SetAtomicNum g' idx 1%Z
                   else g')
    (seq 0 (GetNumAtoms g)) g.

(** [optimize(mol, args, program, log, dup_data, dup_data_idx)]: the
    molecule, [converged] and the energy.  A local variable that is
    assigned on some paths only is an [option]; reading it while it is
    unassigned raises [UnboundLocalError].  Building the ASE atoms
    object (elements, charges, constraint) is part of the engine call. *)
Definition optimize (args : Args) (program : Program) (m : molobj) (w : World)
  : result (molobj * Z * Q * World) :=
  (* removing the Ba atom if NCI complexes *)
  let g := if nci_complex args then remove_iodine (geom m) else geom m in
  g <- (if metal_complex args && negb (nodihedrals args)
        then set_metal_back args g else Ok g) ;;
  let w := set_args_charge (rules_get_charge g args) w in
  let w := dup_data_at Overall_charge (CInt (fold_right Z.add 0%Z (args_charge w))) w in
  let cartesians := g in
  let coordinates := cartesians in
  '(sqm_energy, converged, coordinates, w) <-
     match program with
     | ani =>
         (* optimizer.run writes ANI1_opt.traj; the test reads xTB_opt.traj *)
         let w := set_traj ANI1_opt_traj (Some (BFGS_frames ani g args)) w in
         frames <- match traj w xTB_opt_traj with
                   | Some n => Ok n
                   | None => Raise (OSError "xTB_opt.traj")
                   end ;;
         let '(coordinates, converged) :=
           if negb (frames =? opt_steps args + 1)%nat
           then (BFGS_positions ani g args, Some 0%Z)
           else (coordinates, None) in
         (* Now let's compute energy *)
         Ok (Some (SQM_energy ani coordinates), converged, coordinates, w)
     | xtb =>
         let w := if metal_complex args
                     && negb (String.eqb (input_ext args) ".csv"
                              || String.eqb (input_ext args) ".cdx"
                              || String.eqb (input_ext args) ".smi")
                  then log_verbose args Log_charge_read_from_com w else w in
         let w := set_traj xTB_opt_traj (Some (BFGS_frames xtb g args)) w in
         frames <- match traj w xTB_opt_traj with
                   | Some n => Ok n
                   | None => Raise (OSError "xTB_opt.traj")
                   end ;;
         let '(coordinates, converged) :=
           if negb (frames =? opt_steps args + 1)%nat
           then (BFGS_positions xtb g args, Some 0%Z)
           else (coordinates, None) in
         (* Now let's compute energy *)
         Ok (Some (SQM_energy xtb (BFGS_positions xtb g args)),
             converged, coordinates, w)
     | OtherProgram _ =>
         Ok (None, None, coordinates, log_write Log_program_not_defined w)
     end ;;
  (* energy, converged, cartesians = sqm_energy, converged, ... *)
  energy <- match sqm_energy with
            | Some e => Ok e
            | None => Raise (UnboundLocalError "sqm_energy")
            end ;;
  converged <- match converged with
               | Some c => Ok c
               | None => Raise (UnboundLocalError "converged")
               end ;;
  (* update coordinates of mol object *)
  Ok (with_geom m coordinates, converged, energy, w).

(** [name.split('_rdkit')[0]] *)
Definition split_rdkit (name : string) : string :=
  match String.index 0 "_rdkit" name with
  | Some k => substring 0 k name
  | None => name
  end.

(** [write_confs(conformers, energies, name, args, program, log)] *)
Definition write_confs (conformers : list molobj) (energies : list Q)
           (name : string) (args : Args) (program : Program) (w : World)
  : result World :=
  if (0 <? length conformers)%nat then
    (* list in energy order *)
    let cids := seq 0 (length conformers) in
    sortedcids <- sorted_by_energy energies cids ;;
    let name := split_rdkit name in
    let path := (name ++ "_" ++ program_str program ++ output args)%string in
    let w := SDWriter path w in
    '(write_confs, w) <-
       for_each sortedcids
         (fun cid (st : Z * World) =>
            c <- index conformers cid ;;
            Ok ((fst st + 1)%Z, sd_write path c (-1) (snd st)))
         (0%Z, w) ;;
    Ok (log_verbose args (Log_writing_conformers write_confs path) w)
  else Ok (log_write Log_no_conformers_found w).

(** What the loop of [mult_min] carries. *)
Record MinState : Type := {
  globmin : option Q;
  n_high : Z;
  n_dup_energy : Z;
  n_dup_rms_eng : Z;
  c_converged : list Z;
  c_energy : list Q;
  outmols : list molobj
}.

(** [for j, seenmol in enumerate(outmols)]: how the loop is left. *)
Fixpoint refine_seen (args : Args) (m : molobj) (energy : Q)
         (c_energy : list Q) (seen : list (nat * molobj)) : result Verdict :=
  match seen with
  | [] => Ok Unique
  | (j, seenmol) :: rest =>
      e_j <- index c_energy j ;;
      if Qltb (E_diff energy e_j) (initial_energy_threshold args) then
        Ok EnergyDuplicate
      else if Qltb (E_diff energy e_j) (energy_threshold args) then
        let rms := get_conf_RMS (geom m) (geom seenmol) 0 0
                     (heavyonly args) (max_matches_RMSD args) in
        if Qltb rms (rms_threshold args) then Ok RmsDuplicate
        else refine_seen args m energy c_energy rest
      else refine_seen args m energy c_energy rest
  end.

(** What [mult_min] does with one optimised conformer: the update of
    [globmin], then the test on convergence and on the energy window,
    then the comparison with the conformers already kept. *)
Definition refine_accept (args : Args) (m : molobj) (converged : Z)
           (energy : Q) (st : MinState) : result MinState :=
  let globmin := match globmin st with
                 | None => energy
                 | Some gm => gm
                 end in
  let globmin := if Qltb energy globmin then energy else globmin in
  if (converged =? 0)%Z && Qltb (E_diff energy globmin) (ewin args) then
    (* compare against all previous conformers located *)
    v <- refine_seen args m energy (c_energy st) (enumerate (outmols st)) ;;
    match v with
    | EnergyDuplicate =>
        Ok {| globmin := Some globmin; n_high := n_high st;
              n_dup_energy := (n_dup_energy st + 1)%Z;
              n_dup_rms_eng := n_dup_rms_eng st;
              c_converged := c_converged st; c_energy := c_energy st;
              outmols := outmols st |}
    | RmsDuplicate =>
        Ok {| globmin := Some globmin; n_high := n_high st;
              n_dup_energy := n_dup_energy st;
              n_dup_rms_eng := (n_dup_rms_eng st + 1)%Z;
              c_converged := c_converged st; c_energy := c_energy st;
              outmols := outmols st |}
    | Unique =>
        Ok {| globmin := Some globmin; n_high := n_high st;
              n_dup_energy := n_dup_energy st;
              n_dup_rms_eng := n_dup_rms_eng st;
              c_converged := c_converged st ++ [converged];
              c_energy := c_energy st ++ [energy];
              outmols := outmols st ++ [m] |}
    end
  else
    Ok {| globmin := Some globmin; n_high := (n_high st + 1)%Z;
          n_dup_energy := n_dup_energy st;
          n_dup_rms_eng := n_dup_rms_eng st;
          c_converged := c_converged st; c_energy := c_energy st;
          outmols := outmols st |}.

(** One pass of [for i, mol in enumerate(inmols)], for an optimiser
    [opt] (the source calls [optimize]). *)
Definition refine_body
           (opt : molobj -> World -> result (molobj * Z * Q * World))
           (args : Args) (entry : option molobj) (st : MinState * World)
  : result (MinState * World) :=
  match entry with
  | Some m =>
      (* optimize this structure and record the energy *)
      '(m, converged, energy, w) <- opt m (snd st) ;;
      st' <- refine_accept args m converged energy (fst st) ;;
      Ok (st', w)
  | None => Ok st
  end.

Definition refine_init : MinState :=
  {| globmin := None; n_high := 0%Z; n_dup_energy := 0%Z;
     n_dup_rms_eng := 0%Z; c_converged := []; c_energy := []; outmols := [] |}.

Definition refine_loop
           (opt : molobj -> World -> result (molobj * Z * Q * World))
           (args : Args) (inmols : list (option molobj)) (w : World)
  : result (MinState * World) :=
  for_each inmols (refine_body opt args) (refine_init, w).

(** [mult_min(name, args, program, log, dup_data, dup_data_idx)] with the
    optimiser as a parameter. *)
Definition mult_min_with
           (opt : molobj -> World -> result (molobj * Z * Q * World))
           (name : string) (args : Args) (program : Program) (w : World)
  : result World :=
  inmols <- SDMolSupplier (name ++ output args) w ;;
  let w := log_verbose args
             (Log_multiple_minimization (name ++ output args) program) w in
  '(st, w) <- refine_loop opt args inmols w ;;
  let w := log_verbose args
             (Log_prefilter_duplicates (n_dup_energy st)
                (initial_energy_threshold args)) w in
  let w := log_verbose args
             (Log_rms_duplicates (n_dup_rms_eng st) (rms_threshold args)
                (energy_threshold args)) w in
  let w := log_verbose args (Log_high_energy_rejected (n_high st) (ewin args)) w in
  (* if SQM energy exists, overwrite RDKIT energies and geometries *)
  let cids := seq 0 (length (outmols st)) in
  sortedcids <- sorted_by_energy (c_energy st) cids ;;
  let name_mol := split_rdkit name in
  outmols <- for_each (enumerate sortedcids) (set_props name_mol (c_energy st))
               (outmols st) ;;
  let w :=
    match program with
    | xtb =>
        let w := dup_data_at xTB_Initial_samples (CInt (Z.of_nat (length inmols))) w in
        let w := dup_data_at xTB_initial_energy_threshold (CInt (n_dup_energy st)) w in
        let w := dup_data_at xTB_RMSD_and_energy_duplicates (CInt (n_dup_rms_eng st)) w in
        dup_data_at xTB_Unique_conformers (CInt (Z.of_nat (length sortedcids))) w
    | ani =>
        let w := dup_data_at ANI1ccx_Initial_samples (CInt (Z.of_nat (length inmols))) w in
        let w := dup_data_at ANI1ccx_initial_energy_threshold (CInt (n_dup_energy st)) w in
        let w := dup_data_at ANI1ccx_RMSD_and_energy_duplicates (CInt (n_dup_rms_eng st)) w in
        dup_data_at ANI1ccx_Unique_conformers (CInt (Z.of_nat (length sortedcids))) w
    | OtherProgram _ => w
    end in
  (* write the filtered, ordered conformers to external file *)
  write_confs outmols (c_energy st) name args program w.

(** [mult_min], as the source has it. *)
Definition mult_min (name : string) (args : Args) (program : Program) (w : World)
  : result World :=
  mult_min_with (optimize args program) name args program w.

(** ** Orchestration *)

(** [conformer_generation(mol, name, start_time, args, log, dup_data,
    dup_data_idx, coord_Map, alg_Map, mol_template)]; [elapsed] is what
    the clock gives at the end.  The [try] block re-raises
    [KeyboardInterrupt] and [SystemExit] and has no other handler, so
    every exception leaves the function. *)
Definition conformer_generation (fuel : nat) (g : mol) (name : string)
           (elapsed : Q) (args : Args) (coord_Map : option CoordMap)
           (alg_Map : option AlgMap) (mol_template : option mol) (w : World)
  : result World :=
  let '(valid_structure, w) := filters g args w in
  w <- (if valid_structure then
          let w := log_verbose args (Log_molecule_header name) w in
          (* the conformational search *)
          '(gen, w) <- summ_search fuel g name args coord_Map alg_Map mol_template w ;;
          if negb (gen =? -1)%Z then
            if nodihedrals args then
              w <- (if ANI1ccx args
                    then mult_min (name ++ "_" ++ "rdkit") args ani w else Ok w) ;;
              if xtb_on args
              then mult_min (name ++ "_" ++ "rdkit") args xtb w else Ok w
            else
              w <- (if ANI1ccx args then
                      if negb (gen =? 0)%Z then
                        mult_min (name ++ "_" ++ "rdkit" ++ "_" ++ "rotated") args ani w
                      else
                        let w := log_write (Log_no_dihedrals_found ani) w in
                        mult_min (name ++ "_" ++ "rdkit") args ani w
                    else Ok w) ;;
              if xtb_on args then
                if negb (gen =? 0)%Z then
                  mult_min (name ++ "_" ++ "rdkit" ++ "_" ++ "rotated") args xtb w
                else
                  let w := log_write (Log_no_dihedrals_found xtb) w in
                  mult_min (name ++ "_" ++ "rdkit") args xtb w
              else Ok w
          else Ok w
        else Ok (log_write Log_invalid_structure w)) ;;
  (* removing temporary files *)
  let w := set_traj xTB_opt_traj None w in
  let w := set_traj ANI1_opt_traj None w in
  let w := if time_on args then
             let w := log_write (Log_execution_time elapsed) w in
             dup_data_at time_seconds (CNum elapsed) w
           else w in
  Ok w.

(** ** Definitions used to state the properties *)

(** The sampler as the specification words it: from the three
    descriptor counts, the metal data and the multiplier. *)
Definition estimate_initial_samples (rotatable_bonds polar_H_donor_count
           saturated_ring_count : Z) (is_metal_complex : bool)
           (metal_center_count : nat) (multiplier : Z) : Z :=
  let multiplier :=
    if is_metal_complex && (1 <=? metal_center_count)%nat
    then (multiplier * (3 * Z.of_nat metal_center_count))%Z
    else multiplier in
  let raw := (3 * rotatable_bonds + 3 * polar_H_donor_count
              + 3 * saturated_ring_count)%Z in
  if (raw =? 0)%Z then multiplier else (multiplier * raw)%Z.




(** [cenergy[c]], read where [c] is in range. *)
Definition energy_of (cenergy : list Q) (c : nat) : Q := nth c cenergy 0.

(** The list with position [i] changed by [f]. *)
Fixpoint update {A : Type} (l : list A) (i : nat) (f : A -> A) : list A :=
  match l, i with
  | [], _ => []
  | x :: l', O => f x :: l'
  | x :: l', S i' => x :: update l' i' f
  end.

(** The molecule object after all torsions of conformer [conf] are set
    to 180 degrees. *)
Definition reset_obj (rotmatches : list dihedral) (conf : nat) (om : molobj)
  : molobj :=
  fold_left (fun om m => with_geom om (SetDihedralDeg (geom om) conf m 180))
    rotmatches om.

(** The RMSD stage B measures for an accepted conformer [seen] and a
    candidate [conf]: both are read from the candidate's object. *)
Definition measured_rms (args : Args) (om : molobj) (seen conf : nat) : Q :=
  get_conf_RMS (geom om) (geom om) (Z.of_nat seen) (Z.of_nat conf)
    (heavyonly args) (max_matches_RMSD args).

(** Stage A compares on energy only. *)
Definition cmpA (args : Args) (cenergy : list Q) (conf seen : nat) : Verdict :=
  if Qltb (E_diff (energy_of cenergy conf) (energy_of cenergy seen))
       (initial_energy_threshold args)
  then EnergyDuplicate else Unique.

(** Stage B compares on energy and on the RMSD measured in the
    candidate's object after its torsions are reset; [outmols] is the
    list the stage starts from. *)
Definition cmpB (args : Args) (rotmatches : list dihedral) (cenergy : list Q)
           (outmols : list molobj) (conf seen : nat) : Verdict :=
  match nth_error outmols conf with
  | Some om =>
      if Qltb (E_diff (energy_of cenergy conf) (energy_of cenergy seen))
           (energy_threshold args)
         && Qltb (measured_rms args (reset_obj rotmatches conf om) seen conf)
              (rms_threshold args)
      then RmsDuplicate else Unique
  | None => Unique
  end.

(** The comparison of the filter after rotation and of the refinement
    stage, on a candidate and an accepted molecule with their energies. *)
Definition cmpE (args : Args) (rms : Q) (e e' : Q) : Verdict :=
  if Qltb (E_diff e e') (initial_energy_threshold args) then EnergyDuplicate
  else if Qltb (E_diff e e') (energy_threshold args)
          && Qltb rms (rms_threshold args)
  then RmsDuplicate else Unique.






End Pipeline.

(** ** The greedy filter the three passes share

    A candidate is compared with the accepted items in order; the first
    comparison that is not [Unique] decides, and a candidate that is
    [Unique] against all of them is appended. *)

Section Greedy.

Variable A : Type.
Variable cmp : A -> A -> Verdict.

Fixpoint scan (x : A) (seen : list A) : Verdict :=
  match seen with
  | [] => Unique
  | a :: rest =>
      match cmp x a with
      | Unique => scan x rest
      | v => v
      end
  end.

Record GState : Type := {
  accepted : list A;
  dup_energy : Z;
  dup_rms : Z
}.

Definition gstep (st : GState) (x : A) : GState :=
  match scan x (accepted st) with
  | Unique =>
      {| accepted := accepted st ++ [x]; dup_energy := dup_energy st;
         dup_rms := dup_rms st |}
  | EnergyDuplicate =>
      {| accepted := accepted st; dup_energy := (dup_energy st + 1)%Z;
         dup_rms := dup_rms st |}
  | RmsDuplicate =>
      {| accepted := accepted st; dup_energy := dup_energy st;
         dup_rms := (dup_rms st + 1)%Z |}
  end.

Definition greedy (l : list A) (st : GState) : GState :=
  fold_left gstep l st.

(** No accepted item is a duplicate of one accepted before it. *)
Definition pairwise_unique (l : list A) : Prop :=
  ForallOrdPairs (fun a x => cmp x a = Unique) l.

End Greedy.

(** [l1] is [l2] with some items left out. *)
Inductive subseq {A : Type} : list A -> list A -> Prop :=
| subseq_nil : subseq [] []
| subseq_skip : forall x l1 l2, subseq l1 l2 -> subseq l1 (x :: l2)
| subseq_keep : forall x l1 l2, subseq l1 l2 -> subseq (x :: l1) (x :: l2).

(** The order of [sorted]: on the keys. *)
Definition key_le {A : Type} (a b : Q * A) : Prop := fst a <= fst b.

(** A list of conformer ids is in non-decreasing energy order. *)
Definition energy_sorted (cenergy : list Q) (l : list nat) : Prop :=
  StronglySorted (fun a b => nth a cenergy 0 <= nth b cenergy 0) l.

(** ** The stages of the filters as greedy filters *)

Definition in_range {A : Type} (l : list A) (c : nat) : Prop :=
  (c < length l)%nat.

Section StageSpecs.

Context {TK : Toolkit}.

(** The state of stage A after the first candidate: it is in the list,
    and counted as a duplicate of itself when the threshold is positive. *)
Definition stageA_first (args : Args) (c : nat) : GState nat :=
  {| accepted := [c];
     dup_energy := if Qltb 0 (initial_energy_threshold args) then 0%Z else (-1)%Z;
     dup_rms := 0%Z |}.

Definition stageA (args : Args) (cenergy : list Q) (l : list nat)
  : GState nat :=
  match l with
  | [] => {| accepted := []; dup_energy := (-1)%Z; dup_rms := 0%Z |}
  | c :: r => greedy (cmpA args cenergy) r (stageA_first args c)
  end.

(** Stage B resets the torsions of every candidate, in its own object. *)
Definition reset_all (rotmatches : list dihedral) (l : list nat)
           (outmols : list molobj) : list molobj :=
  fold_left (fun om c => update om c (reset_obj rotmatches c)) l outmols.

(** The state of stage B after the first candidate: it is in the list,
    and counted when it is a duplicate of itself. *)
Definition stageB_first (args : Args) (rotmatches : list dihedral)
           (cenergy : list Q) (outmols : list molobj) (c : nat) : GState nat :=
  {| accepted := [c];
     dup_energy := 0%Z;
     dup_rms := match cmpB args rotmatches cenergy outmols c c with
                | Unique => (-1)%Z
                | _ => 0%Z
                end |}.

Definition stageB (args : Args) (rotmatches : list dihedral)
           (cenergy : list Q) (outmols : list molobj) (l : list nat)
  : GState nat :=
  match l with
  | [] => {| accepted := []; dup_energy := 0%Z; dup_rms := (-1)%Z |}
  | c :: r =>
      greedy (cmpB args rotmatches cenergy outmols) r
        (stageB_first args rotmatches cenergy outmols c)
  end.

(** What the two stages of the minimisation filter return on ids
    that are distinct and in range. *)
Definition embed_outcome (args : Args) (rotmatches : list dihedral)
           (cenergy : list Q) (outmols : list molobj) (l : list nat)
  : FilterOutcome :=
  {| selectedcids_initial := accepted (stageA args cenergy l);
     selectedcids :=
       accepted (stageB args rotmatches cenergy outmols
                   (accepted (stageA args cenergy l)));
     eng_dup := dup_energy (stageA args cenergy l);
     eng_rms_dup :=
       dup_rms (stageB args rotmatches cenergy outmols
                  (accepted (stageA args cenergy l)));
     filtered_outmols :=
       reset_all rotmatches (accepted (stageA args cenergy l)) outmols |}.

(** The comparison of the filter after rotation: a candidate against an
    accepted molecule, both as read from the file. *)
Definition cmpR (args : Args) (x a : molobj) : Verdict :=
  match prop_Energy x, prop_Energy a with
  | Some e, Some e' =>
      cmpE args (get_conf_RMS (geom x) (geom a) (-1) (-1)
                   (heavyonly args) (max_matches_RMSD args)) e e'
  | _, _ => Unique
  end.

(** An entry of the file the filter after rotation can take in: it has
    a name and an energy, and the metal can be put back where that is
    asked for. *)
Definition rotation_ready (args : Args) (o : molobj) : Prop :=
  prop_Name o <> None /\ prop_Energy o <> None
  /\ exists g, (if metal_complex args then set_metal_back args (geom o)
                else Ok (geom o)) = Ok g.

(** What holds of the state between two passes of the loop, [k] entries
    in. *)
Record rot_inv (args : Args) (k : nat) (st : RotState) : Prop := {
  ri_started : rd_count st <> 0%Z -> rd_selectedcids st <> [];
  ri_count : rd_count st = 0%Z \/ rd_count st = 1%Z;
  ri_empty : rd_count st = 0%Z -> rd_selectedcids st = [] /\ k = O;
  ri_order : subseq (map fst (rd_selectedcids st)) (seq 0 k);
  ri_ready : Forall (rotation_ready args) (map snd (rd_selectedcids st));
  ri_pairwise : pairwise_unique (cmpR args) (map snd (rd_selectedcids st));
  ri_written : length (rd_written st) = length (rd_selectedcids st)
}.

(** The comparison of the refinement stage: a candidate against a kept
    conformer, each with its energy. *)
Definition cmpM (args : Args) (x a : Q * molobj) : Verdict :=
  cmpE args (get_conf_RMS (geom (snd x)) (geom (snd a)) 0 0
               (heavyonly args) (max_matches_RMSD args)) (fst x) (fst a).

(** [globmin] after a conformer of energy [energy] is optimised. *)
Definition new_globmin (gm : option Q) (energy : Q) : Q :=
  let g := match gm with
           | None => energy
           | Some g => g
           end in
  if Qltb energy g then energy else g.

(** A conformer does not reach the comparison with the kept ones: it
    did not converge, or its energy is not below the running minimum
    plus the window. *)
Definition window_rejected (args : Args) (gm : Q) (converged : Z)
           (energy : Q) : Prop :=
  converged <> 0%Z \/ gm + ewin args <= energy.

(** What the optimiser returns on the entries of the file, in file
    order. *)
Fixpoint optimised (opt : molobj -> World -> result (molobj * Z * Q * World))
         (inmols : list (option molobj)) (w : World)
  : result (list (molobj * Z * Q) * World) :=
  match inmols with
  | [] => Ok ([], w)
  | None :: rest => optimised opt rest w
  | Some m :: rest =>
      '(m', converged, energy, w1) <- opt m w ;;
      '(outs, w2) <- optimised opt rest w1 ;;
      Ok ((m', converged, energy) :: outs, w2)
  end.

(** The acceptance test of [mult_min] on optimised conformers, in
    order. *)
Definition accept_all (args : Args) (outs : list (molobj * Z * Q))
           (st : MinState) : result MinState :=
  for_each outs
    (fun o st => refine_accept args (fst (fst o)) (snd (fst o)) (snd o) st)
    st.



(** The kept conformers of the refinement stage with their energies. *)
Definition kept (st : MinState) : list (Q * molobj) :=
  combine (c_energy st) (outmols st).


End StageSpecs.

(** ** A toolkit to run the pipeline on

    A molecule is an atom list, the matches of the rotatable-bond
    pattern, and one integer coordinate per conformer.  Embedding puts
    conformer [i] at coordinate [i]; minimisation moves a coordinate to
    its residue modulo 4, and the energy is the coordinate; setting a
    dihedral to [deg] puts the coordinate at [floor(deg / 120)]; the RMSD
    is the distance of the coordinates; a refinement run takes 5 steps to
    converge and leaves the geometry where it is. *)

Module Toy.

Record tmol : Set := {
  atoms : list (string * Z);
  torsion_matches : list dihedral;
  coords : list Z
}.

Definition coord (m : tmol) (confId : Z) : Z :=
  nth (Z.to_nat confId) (coords m) 0%Z.

Definition set_coord (m : tmol) (conf : nat) (x : Z) : tmol :=
  {| atoms := atoms m; torsion_matches := torsion_matches m;
     coords := update (coords m) conf (fun _ => x) |}.

Definition embed (m : tmol) (n : Z) : tmol * list nat :=
  ({| atoms := atoms m; torsion_matches := torsion_matches m;
      coords := map Z.of_nat (seq 0 (Z.to_nat n)) |},
   seq 0 (Z.to_nat n)).

Definition relax (m : tmol) (conf : nat) : tmol :=
  set_coord m conf (coord m (Z.of_nat conf) mod 4)%Z.

Definition set_atomic_num (m : tmol) (idx : nat) (z : Z) : tmol :=
  {| atoms := update (atoms m) idx
                (fun _ => (nth (Z.to_nat z) possible_atoms ""%string, z));
     torsion_matches := torsion_matches m; coords := coords m |}.

#[export] Instance toolkit : Toolkit := {|
  mol := tmol;
  CoordMap := unit;
  AlgMap := unit;
  MolWt := fun _ => 72;
  NumRotatableBonds := fun m => Z.of_nat (length (torsion_matches m));
  NHOHCount := fun _ => 0%Z;
  NumSaturatedRings := fun _ => 0%Z;
  GetNumAtoms := fun m => length (atoms m);
  GetSymbol := fun m i => fst (nth i (atoms m) (""%string, 0%Z));
  GetAtomicNum := fun m i => snd (nth i (atoms m) (""%string, 0%Z));
  SetAtomicNum := set_atomic_num;
  SanitizeMol := fun m => m;
  AddHs := fun m => m;
  RemoveHs := fun m => m;
  GetSubstructMatches := torsion_matches;
  GetSubstructMatch := fun _ _ => [];
  EmbedMultipleConfs := fun m n _ => embed m n;
  FF_Minimize := fun _ m conf _ => relax m conf;
  FF_CalcEnergy := fun _ m conf => inject_Z (coord m (Z.of_nat conf));
  Distance := fun _ _ _ => 0;
  FF_MinimizeConstrained := fun _ _ m conf => (relax m conf, false);
  FF_CalcEnergyConstrained := fun _ _ m conf => inject_Z (coord m (Z.of_nat conf));
  AlignMol := fun m _ _ _ => m;
  SetDihedralDeg := fun m conf _ deg => set_coord m conf (Qfloor (deg / 120));
  GetBestRMS := fun m1 m2 c1 c2 _ =>
                  inject_Z (Z.abs (coord m1 c1 - coord m2 c2));
  ParseRecord := fun m confId =>
                   Some {| atoms := atoms m;
                           torsion_matches := torsion_matches m;
                           coords := [coord m confId] |};
  rules_get_charge := fun _ _ => [0%Z];
  BFGS_frames := fun _ _ args => S (Nat.min 5 (opt_steps args));
  BFGS_positions := fun _ m _ => m;
  SQM_energy := fun _ m => inject_Z (coord m 0)
|}.

(** A five-carbon chain: heavy atoms only, two rotatable bonds. *)
Definition pentane : tmol :=
  {| atoms := [("C"%string, 6%Z); ("C"%string, 6%Z); ("C"%string, 6%Z);
               ("C"%string, 6%Z); ("C"%string, 6%Z)];
     torsion_matches := [(0, 1, 2, 3)%nat; (1, 2, 3, 4)%nat];
     coords := [] |}.

(** Ethane-like: one rotatable bond. *)
Definition one_torsion : tmol :=
  {| atoms := [("C"%string, 6%Z); ("C"%string, 6%Z); ("C"%string, 6%Z);
               ("C"%string, 6%Z)];
     torsion_matches := [(0, 1, 2, 3)%nat];
     coords := [] |}.

(** The options of a run: 6 samples, default thresholds, a scan in
    steps of 120 degrees. *)
Definition args0 : Args :=
  {| verbose := true; sample := SampleN 6; auto_sample := 20%Z; seed := 62609%Z;
     ff := MMFF; opt_steps_RDKit := 1000%Z; max_torsions := 5%Z;
     max_MolWt := 10000; nodihedrals := false; degree := 120;
     initial_energy_threshold := 1 # 10000; energy_threshold := 1 # 4;
     rms_threshold := 1 # 4; heavyonly := true; max_matches_RMSD := 1000%Z;
     ewin := 40; ANI1ccx := false; xtb_on := false; opt_steps := 1000;
     opt_fmax := 5 # 100; metal_complex := false; metal_idx := [];
     metal_sym := []; nci_complex := false; time_on := false;
     input_ext := ".smi"; output := ".sdf" |}.

(** The same with other thresholds, torsion limit, refinement ... *)
Definition with_thresholds (a : Args) (iet et rt : Q) : Args :=
  {| verbose := verbose a; sample := sample a; auto_sample := auto_sample a;
     seed := seed a; ff := ff a; opt_steps_RDKit := opt_steps_RDKit a;
     max_torsions := max_torsions a; max_MolWt := max_MolWt a;
     nodihedrals := nodihedrals a; degree := degree a;
     initial_energy_threshold := iet; energy_threshold := et;
     rms_threshold := rt; heavyonly := heavyonly a;
     max_matches_RMSD := max_matches_RMSD a; ewin := ewin a;
     ANI1ccx := ANI1ccx a; xtb_on := xtb_on a; opt_steps := opt_steps a;
     opt_fmax := opt_fmax a; metal_complex := metal_complex a;
     metal_idx := metal_idx a; metal_sym := metal_sym a;
     nci_complex := nci_complex a; time_on := time_on a;
     input_ext := input_ext a; output := output a |}.


Definition with_xtb (a : Args) (steps : nat) (window : Q) : Args :=
  {| verbose := verbose a; sample := sample a; auto_sample := auto_sample a;
     seed := seed a; ff := ff a; opt_steps_RDKit := opt_steps_RDKit a;
     max_torsions := max_torsions a; max_MolWt := max_MolWt a;
     nodihedrals := true; degree := degree a;
     initial_energy_threshold := initial_energy_threshold a;
     energy_threshold := energy_threshold a;
     rms_threshold := rms_threshold a; heavyonly := heavyonly a;
     max_matches_RMSD := max_matches_RMSD a; ewin := window;
     ANI1ccx := false; xtb_on := true; opt_steps := steps;
     opt_fmax := opt_fmax a; metal_complex := metal_complex a;
     metal_idx := metal_idx a; metal_sym := metal_sym a;
     nci_complex := nci_complex a; time_on := time_on a;
     input_ext := input_ext a; output := output a |}.

(** A molecule object as read from an SD file: one conformer at
    coordinate [x], with a name and an energy. *)
Definition sd_entry (x : Z) (e : Q) : molobj :=
  {| geom := {| atoms := atoms one_torsion;
                torsion_matches := torsion_matches one_torsion;
                coords := [x] |};
     prop_Name := Some "mol"%string;
     prop_Energy := Some e |}.





End Toy.

(** * Properties *)

(** ** Comparisons, lookups and loops *)

Lemma Qltb_lt (a b : Q) : Qltb a b = true <-> a < b.
Proof. unfold Qltb, Qlt. apply Z.ltb_lt. Qed.

Lemma Qltb_ge (a b : Q) : Qltb a b = false <-> b <= a.
Proof. unfold Qltb, Qle. apply Z.ltb_ge. Qed.

Lemma Qltb_comp (a a' b b' : Q) :
  a == a' -> b == b' -> Qltb a b = Qltb a' b'.
Proof.
  intros Ha Hb.
  destruct (Qltb a b) eqn:E1, (Qltb a' b') eqn:E2; try reflexivity.
  - apply Qltb_lt in E1. apply Qltb_ge in E2. rewrite Ha, Hb in E1. lra.
  - apply Qltb_ge in E1. apply Qltb_lt in E2. rewrite Ha, Hb in E1. lra.
Qed.

Lemma E_diff_self (e : Q) : E_diff e e == 0.
Proof.
  unfold E_diff. setoid_replace (e - e) with 0 by ring. reflexivity.
Qed.


Lemma E_diff_self_dup (e t : Q) : Qltb (E_diff e e) t = Qltb 0 t.
Proof. apply Qltb_comp; [apply E_diff_self | reflexivity]. Qed.

Lemma index_Ok {A : Type} (l : list A) (i : nat) (a : A) :
  index l i = Ok a <-> nth_error l i = Some a.
Proof.
  unfold index. destruct (nth_error l i); split; intros H;
    inversion H; reflexivity.
Qed.

Lemma index_lt {A : Type} (l : list A) (i : nat) :
  (i < length l)%nat -> exists a, index l i = Ok a.
Proof.
  intros H. unfold index. destruct (nth_error l i) eqn:E.
  - eauto.
  - apply nth_error_None in E. lia.
Qed.

Lemma index_nth {A : Type} (l : list A) (i : nat) (d : A) :
  (i < length l)%nat -> index l i = Ok (nth i l d).
Proof.
  intros H. unfold index. rewrite (nth_error_nth' l d H). reflexivity.
Qed.

Lemma bind_Ok {A B : Type} (r : result A) (k : A -> result B) (b : B) :
  bind r k = Ok b -> exists a, r = Ok a /\ k a = Ok b.
Proof. destruct r; simpl; intros H; try discriminate. eauto. Qed.

Lemma for_each_app {A S : Type} (l1 l2 : list A) (body : A -> S -> result S)
      (s : S) :
  for_each (l1 ++ l2) body s = bind (for_each l1 body s) (for_each l2 body).
Proof.
  revert s. induction l1 as [|x l1 IH]; intros s; simpl.
  - reflexivity.
  - destruct (body x s); simpl; auto.
Qed.

(** A loop whose passes all return is a fold. *)
Lemma for_each_fold {A S : Type} (l : list A) (body : A -> S -> result S)
      (f : S -> A -> S) (P : S -> Prop) (s : S) :
  (forall x s, In x l -> P s -> body x s = Ok (f s x) /\ P (f s x)) ->
  P s ->
  for_each l body s = Ok (fold_left f l s) /\ P (fold_left f l s).
Proof.
  revert s. induction l as [|x l IH]; intros s Hb Hs; simpl.
  - auto.
  - destruct (Hb x s (or_introl eq_refl) Hs) as [E HP]. rewrite E. simpl.
    apply IH; auto. intros y s' Hy. apply Hb. right. exact Hy.
Qed.

Lemma enumerate_cons {A : Type} (x : A) (l : list A) :
  enumerate (x :: l) = (O, x) :: combine (seq 1 (length l)) l.
Proof. reflexivity. Qed.

Lemma in_combine_seq {A : Type} (l : list A) (k i : nat) (x : A) :
  In (i, x) (combine (seq k (length l)) l) -> (k <= i)%nat /\ In x l.
Proof.
  revert k. induction l as [|y l IH]; intros k H; simpl in H.
  - contradiction.
  - destruct H as [H|H].
    + inversion H; subst. split; [lia | left; reflexivity].
    + apply IH in H. destruct H. split; [lia | right; assumption].
Qed.

(** ** Subsequences *)

Lemma subseq_refl {A : Type} (l : list A) : subseq l l.
Proof. induction l; constructor; assumption. Qed.


Lemma subseq_In {A : Type} (l1 l2 : list A) (x : A) :
  subseq l1 l2 -> In x l1 -> In x l2.
Proof.
  induction 1; simpl; intros H'; auto.
  destruct H'; auto.
Qed.

Lemma subseq_trans {A : Type} (l1 l2 l3 : list A) :
  subseq l1 l2 -> subseq l2 l3 -> subseq l1 l3.
Proof.
  intros H12 H23. revert l1 H12.
  induction H23; intros l0 H12.
  - exact H12.
  - constructor. auto.
  - inversion H12; subst.
    + constructor. auto.
    + apply subseq_keep. auto.
Qed.

Lemma subseq_app {A : Type} (a1 a2 b1 b2 : list A) :
  subseq a1 a2 -> subseq b1 b2 -> subseq (a1 ++ b1) (a2 ++ b2).
Proof.
  induction 1; simpl; intros Hb; auto.
  - apply subseq_skip; auto.
  - apply subseq_keep; auto.
Qed.

Lemma subseq_snoc_skip {A : Type} (l1 l2 : list A) (x : A) :
  subseq l1 l2 -> subseq l1 (l2 ++ [x]).
Proof.
  intros H. rewrite <- (app_nil_r l1).
  apply subseq_app; [assumption | constructor; constructor].
Qed.

Lemma subseq_snoc_keep {A : Type} (l1 l2 : list A) (x : A) :
  subseq l1 l2 -> subseq (l1 ++ [x]) (l2 ++ [x]).
Proof. intros H. apply subseq_app; [assumption | apply subseq_refl]. Qed.

Lemma subseq_Forall {A : Type} (P : A -> Prop) (l1 l2 : list A) :
  subseq l1 l2 -> Forall P l2 -> Forall P l1.
Proof.
  induction 1; intros HF; auto; inversion HF; subst; auto.
Qed.


Lemma subseq_NoDup {A : Type} (l1 l2 : list A) :
  subseq l1 l2 -> NoDup l2 -> NoDup l1.
Proof.
  induction 1; intros HN; auto; inversion HN; subst; auto.
  constructor; auto. intros Hin. eapply subseq_In in Hin; eauto.
Qed.

Lemma subseq_length {A : Type} (l1 l2 : list A) :
  subseq l1 l2 -> (length l1 <= length l2)%nat.
Proof. induction 1; simpl; lia. Qed.

Lemma subseq_map {A B : Type} (f : A -> B) (l1 l2 : list A) :
  subseq l1 l2 -> subseq (map f l1) (map f l2).
Proof.
  induction 1; simpl.
  - constructor.
  - apply subseq_skip; assumption.
  - apply subseq_keep; assumption.
Qed.

Lemma FOP_snoc {A : Type} (R : A -> A -> Prop) (l : list A) (x : A) :
  ForallOrdPairs R (l ++ [x]) <->
  ForallOrdPairs R l /\ Forall (fun a => R a x) l.
Proof.
  induction l as [|a l IH]; simpl.
  - split; intros _; [split; constructor | constructor; constructor].
  - split.
    + intros H. inversion H as [|? ? HF HP]; subst.
      apply IH in HP. destruct HP as [HP HX].
      apply Forall_app in HF. destruct HF as [HF Hx].
      inversion Hx; subst. split; constructor; auto.
    + intros [H HX]. inversion H as [|? ? HF HP]; subst.
      inversion HX; subst. constructor.
      * apply Forall_app. split; auto.
      * apply IH. split; auto.
Qed.


(** ** The greedy filter *)

Section GreedyFacts.

Variable A : Type.
Variable cmp : A -> A -> Verdict.

Lemma scan_unique (x : A) (seen : list A) :
  scan cmp x seen = Unique <-> Forall (fun a => cmp x a = Unique) seen.
Proof.
  induction seen as [|a seen IH]; simpl.
  - split; auto.
  - destruct (cmp x a) eqn:E.
    + rewrite IH. split.
      * intros H. constructor; auto.
      * intros H. inversion H; auto.
    + split; [discriminate|]. intros H. inversion H; congruence.
    + split; [discriminate|]. intros H. inversion H; congruence.
Qed.

(** The accepted items grow by a subsequence of the candidates. *)
Lemma greedy_subseq (l : list A) (st : GState A) :
  exists l', accepted (greedy cmp l st) = accepted st ++ l' /\ subseq l' l.
Proof.
  unfold greedy. revert st. induction l as [|x l IH]; intros st; simpl.
  - exists []. rewrite app_nil_r. split; [reflexivity | constructor].
  - destruct (IH (gstep cmp st x)) as [l' [E S]].
    rewrite E. unfold gstep.
    destruct (scan cmp x (accepted st)); simpl.
    + exists (x :: l'). rewrite <- app_assoc. split; [reflexivity|].
      apply subseq_keep. assumption.
    + exists l'. split; [reflexivity | apply subseq_skip; assumption].
    + exists l'. split; [reflexivity | apply subseq_skip; assumption].
Qed.






End GreedyFacts.

Section StageFacts.

Context {TK : Toolkit}.

Lemma index_energy (cenergy : list Q) (c : nat) :
  in_range cenergy c -> index cenergy c = Ok (energy_of cenergy c).
Proof. intros H. apply index_nth. exact H. Qed.

Lemma contains_In (x : nat) (l : list nat) :
  contains x l = true <-> In x l.
Proof.
  unfold contains. rewrite existsb_exists. split.
  - intros [y [Hy E]]. apply Nat.eqb_eq in E. subst. exact Hy.
  - intros H. exists x. split; [exact H | apply Nat.eqb_refl].
Qed.

Lemma contains_not_In (x : nat) (l : list nat) :
  ~ In x l -> contains x l = false.
Proof.
  intros H. destruct (contains x l) eqn:E; [|reflexivity].
  apply contains_In in E. contradiction.
Qed.

(** *** Stage A is the greedy filter on energy *)

Lemma prefilter_seen_scan (args : Args) (cenergy : list Q) (conf : nat)
      (seen : list nat) :
  in_range cenergy conf -> Forall (in_range cenergy) seen ->
  prefilter_seen args cenergy conf seen =
  Ok (match scan (cmpA args cenergy) conf seen with
      | Unique => false
      | _ => true
      end).
Proof.
  intros Hc Hs. induction Hs as [|a seen Ha Hs IH]; simpl.
  - reflexivity.
  - rewrite (index_energy Hc), (index_energy Ha). simpl.
    unfold cmpA at 1.
    destruct (Qltb _ _); [reflexivity | exact IH].
Qed.

Lemma scan_cmpA_cases (args : Args) (cenergy : list Q) (conf : nat)
      (seen : list nat) :
  scan (cmpA args cenergy) conf seen <> RmsDuplicate.
Proof.
  induction seen as [|a seen IH]; simpl.
  - discriminate.
  - unfold cmpA at 1. destruct (Qltb _ _); [discriminate | exact IH].
Qed.

Lemma prefilter_tail (args : Args) (cenergy : list Q) (r : list nat) :
  forall (k : nat) (st : GState nat),
    (1 <= k)%nat -> NoDup r ->
    (forall c, In c r -> ~ In c (accepted st)) ->
    Forall (in_range cenergy) r ->
    Forall (in_range cenergy) (accepted st) ->
    for_each (combine (seq k (length r)) r) (prefilter_body args cenergy)
      (accepted st, dup_energy st) =
    Ok (accepted (greedy (cmpA args cenergy) r st),
        dup_energy (greedy (cmpA args cenergy) r st))
    /\ dup_rms (greedy (cmpA args cenergy) r st) = dup_rms st.
Proof.
  induction r as [|c r IH]; intros k st Hk Hnd Hfresh Hr Hs.
  - simpl. auto.
  - inversion Hnd as [|? ? Hc Hnd']; subst.
    inversion Hr as [|? ? Hcr Hr']; subst.
    cbn [length seq combine for_each].
    unfold prefilter_body at 1.
    destruct k as [|k]; [lia|]. cbn [Nat.eqb].
    rewrite (prefilter_seen_scan args Hcr Hs). cbn [bind].
    cbn [greedy fold_left]. fold (greedy (cmpA args cenergy) r).
    pose proof (scan_cmpA_cases args cenergy c (accepted st)) as Hno.
    unfold gstep.
    destruct (scan (cmpA args cenergy) c (accepted st)) eqn:E;
      [| |congruence].
    + rewrite contains_not_In by (apply Hfresh; left; reflexivity).
      cbn [bind].
      specialize (IH (S (S k))
                    {| accepted := accepted st ++ [c];
                       dup_energy := dup_energy st; dup_rms := dup_rms st |}).
      cbn [accepted dup_energy dup_rms] in IH. apply IH; auto; try lia.
      * intros c' Hc' Hin. apply in_app_or in Hin. destruct Hin as [Hin|Hin].
        -- apply (Hfresh c'); [right; exact Hc' | exact Hin].
        -- destruct Hin as [->|[]]. contradiction.
      * apply Forall_app. split; auto.
    + cbn [bind].
      specialize (IH (S (S k))
                    {| accepted := accepted st;
                       dup_energy := (dup_energy st + 1)%Z;
                       dup_rms := dup_rms st |}).
      cbn [accepted dup_energy dup_rms] in IH. apply IH; auto; try lia.
      intros c' Hc'. apply Hfresh. right. exact Hc'.
Qed.

Lemma prefilter_greedy (args : Args) (cenergy : list Q) (l : list nat) :
  NoDup l -> Forall (in_range cenergy) l ->
  prefilter args cenergy l =
  Ok (accepted (stageA args cenergy l), dup_energy (stageA args cenergy l)).
Proof.
  intros Hnd Hr. destruct l as [|c r].
  - reflexivity.
  - inversion Hnd as [|? ? Hc Hnd']; subst.
    inversion Hr as [|? ? Hcr Hr']; subst.
    unfold prefilter. rewrite enumerate_cons. cbn [for_each].
    unfold prefilter_body at 1. cbn [Nat.eqb app].
    rewrite (prefilter_seen_scan args (seen := [c]) Hcr)
      by (constructor; auto).
    cbn [scan]. unfold cmpA at 1. rewrite E_diff_self_dup.
    unfold stageA.
    destruct (Qltb 0 (initial_energy_threshold args)) eqn:E; cbn [bind].
    + pose proof (@prefilter_tail args cenergy r 1 (stageA_first args c)) as T.
      unfold stageA_first in *. rewrite E in *. cbn [accepted dup_energy] in T.
      apply T; auto.
      * intros c' Hc' [->|[]]. contradiction.
    + replace (contains c [c]) with true
        by (symmetry; apply contains_In; left; reflexivity).
      cbn [bind].
      pose proof (@prefilter_tail args cenergy r 1 (stageA_first args c)) as T.
      unfold stageA_first in *. rewrite E in *. cbn [accepted dup_energy] in T.
      apply T; auto.
      * intros c' Hc' [->|[]]. contradiction.
Qed.

End StageFacts.

Section StageBFacts.

Context {TK : Toolkit}.

Lemma length_update {A : Type} (l : list A) (i : nat) (f : A -> A) :
  length (update l i f) = length l.
Proof.
  revert i. induction l as [|x l IH]; intros [|i]; simpl; auto.
Qed.

Lemma nth_error_update_eq {A : Type} (l : list A) (i : nat) (f : A -> A) (x : A) :
  nth_error l i = Some x -> nth_error (update l i f) i = Some (f x).
Proof.
  revert i. induction l as [|y l IH]; intros [|i]; simpl; intros H;
    try discriminate.
  - inversion H. reflexivity.
  - auto.
Qed.

Lemma nth_error_update_neq {A : Type} (l : list A) (i j : nat) (f : A -> A) :
  i <> j -> nth_error (update l i f) j = nth_error l j.
Proof.
  revert i j. induction l as [|y l IH]; intros [|i] [|j] H; simpl; auto.
  congruence.
Qed.

Lemma update_ext {A : Type} (l : list A) (i : nat) (f g : A -> A) :
  (forall x, nth_error l i = Some x -> f x = g x) ->
  update l i f = update l i g.
Proof.
  revert i. induction l as [|y l IH]; intros [|i] H; simpl; auto.
  - rewrite (H y); reflexivity.
  - f_equal. apply IH. intros x Hx. apply H. exact Hx.
Qed.

Lemma update_update {A : Type} (l : list A) (i : nat) (f g : A -> A) :
  update (update l i f) i g = update l i (fun x => g (f x)).
Proof.
  revert i. induction l as [|y l IH]; intros [|i]; simpl; auto.
  f_equal. apply IH.
Qed.

Lemma update_id {A : Type} (l : list A) (i : nat) (f : A -> A) :
  (forall x, nth_error l i = Some x -> f x = x) -> update l i f = l.
Proof.
  revert i. induction l as [|y l IH]; intros [|i] H; simpl; auto.
  - rewrite (H y); reflexivity.
  - f_equal. apply IH. intros x Hx. apply H. exact Hx.
Qed.

Lemma setitem_update {A : Type} (l : list A) (i : nat) (a : A) :
  in_range l i -> setitem l i a = Ok (update l i (fun _ => a)).
Proof.
  unfold in_range. revert i.
  induction l as [|y l IH]; intros [|i] H; simpl in *; try lia.
  - reflexivity.
  - rewrite IH by lia. reflexivity.
Qed.

Lemma reset_torsions_update (rotmatches : list dihedral) (conf : nat)
      (outmols : list molobj) :
  in_range outmols conf ->
  reset_torsions rotmatches conf outmols =
  Ok (update outmols conf (reset_obj rotmatches conf)).
Proof.
  unfold reset_torsions, reset_obj.
  revert outmols. induction rotmatches as [|m rot IH]; intros om H; simpl.
  - rewrite update_id; auto.
  - destruct (index_lt om H) as [o Ho]. rewrite Ho. cbn [bind].
    rewrite setitem_update by exact H. cbn [bind].
    rewrite IH by (unfold in_range; rewrite length_update; exact H).
    rewrite update_update. f_equal. apply update_ext.
    intros x Hx. apply index_Ok in Ho. congruence.
Qed.

Lemma rms_seen_scan (args : Args) (rotmatches : list dihedral)
      (cenergy : list Q) (outmols0 outmols : list molobj) (conf : nat)
      (o : molobj) (seen : list nat) :
  in_range cenergy conf -> Forall (in_range cenergy) seen ->
  nth_error outmols0 conf = Some o ->
  nth_error outmols conf = Some (reset_obj rotmatches conf o) ->
  rms_seen args cenergy outmols conf seen =
  Ok (match scan (cmpB args rotmatches cenergy outmols0) conf seen with
      | Unique => false
      | _ => true
      end).
Proof.
  intros Hc Hs H0 H1. induction Hs as [|a seen Ha Hs IH]; simpl.
  - reflexivity.
  - rewrite (index_energy Hc), (index_energy Ha). cbn [bind].
    unfold cmpB at 1. rewrite H0.
    destruct (Qltb (E_diff _ _) (energy_threshold args)); cbn [andb].
    + assert (Hi : index outmols conf = Ok (reset_obj rotmatches conf o))
        by (apply index_Ok; exact H1).
      rewrite Hi. cbn [bind]. unfold measured_rms.
      destruct (Qltb _ (rms_threshold args)); [reflexivity | exact IH].
    + exact IH.
Qed.

Lemma scan_cmpB_cases (args : Args) (rotmatches : list dihedral)
      (cenergy : list Q) (outmols : list molobj) (conf : nat) (seen : list nat) :
  scan (cmpB args rotmatches cenergy outmols) conf seen <> EnergyDuplicate.
Proof.
  induction seen as [|a seen IH]; simpl.
  - discriminate.
  - unfold cmpB at 1. destruct (nth_error outmols conf); [|exact IH].
    destruct (_ && _); [discriminate | exact IH].
Qed.

Lemma rmsfilter_tail (args : Args) (rotmatches : list dihedral)
      (cenergy : list Q) (outmols0 : list molobj) (r : list nat) :
  forall (k : nat) (st : GState nat) (outmols : list molobj),
    (1 <= k)%nat -> NoDup r ->
    (forall c, In c r -> ~ In c (accepted st)) ->
    Forall (in_range cenergy) r ->
    Forall (in_range cenergy) (accepted st) ->
    Forall (in_range outmols0) r ->
    length outmols = length outmols0 ->
    (forall c, In c r -> nth_error outmols c = nth_error outmols0 c) ->
    for_each (combine (seq k (length r)) r)
      (rmsfilter_body args rotmatches cenergy)
      (accepted st, dup_rms st, outmols) =
    Ok (accepted (greedy (cmpB args rotmatches cenergy outmols0) r st),
        dup_rms (greedy (cmpB args rotmatches cenergy outmols0) r st),
        reset_all rotmatches r outmols)
    /\ dup_energy (greedy (cmpB args rotmatches cenergy outmols0) r st)
       = dup_energy st.
Proof.
  induction r as [|c r IH]; intros k st om Hk Hnd Hfresh Hr Hs Hr0 Hlen Hag.
  - simpl. auto.
  - inversion Hnd as [|? ? Hc Hnd']; subst.
    inversion Hr as [|? ? Hcr Hr']; subst.
    inversion Hr0 as [|? ? Hc0 Hr0']; subst.
    cbn [length seq combine for_each].
    unfold rmsfilter_body at 1.
    assert (Hcom : in_range om c) by (unfold in_range in *; lia).
    rewrite (reset_torsions_update rotmatches Hcom). cbn [bind].
    destruct k as [|k]; [lia|]. cbn [Nat.eqb].
    destruct (nth_error outmols0 c) as [o|] eqn:Eo;
      [|apply nth_error_None in Eo; unfold in_range in Hc0; lia].
    assert (H1 : nth_error (update om c (reset_obj rotmatches c)) c
                 = Some (reset_obj rotmatches c o)).
    { apply nth_error_update_eq. rewrite Hag by (left; reflexivity). exact Eo. }
    rewrite (@rms_seen_scan args rotmatches cenergy outmols0 _ c o _ Hcr Hs Eo H1).
    cbn [bind].
    cbn [greedy fold_left reset_all].
    fold (greedy (cmpB args rotmatches cenergy outmols0) r).
    fold (reset_all rotmatches r (update om c (reset_obj rotmatches c))).
    pose proof (scan_cmpB_cases args rotmatches cenergy outmols0 c (accepted st))
      as Hno.
    assert (Hag' : forall c', In c' r ->
               nth_error (update om c (reset_obj rotmatches c)) c'
               = nth_error outmols0 c').
    { intros c' Hc'. rewrite nth_error_update_neq.
      - apply Hag. right. exact Hc'.
      - intros ->. contradiction. }
    assert (Hlen' : length (update om c (reset_obj rotmatches c))
                    = length outmols0)
      by (rewrite length_update; exact Hlen).
    unfold gstep.
    destruct (scan (cmpB args rotmatches cenergy outmols0) c (accepted st))
      eqn:E; [|congruence|].
    + rewrite contains_not_In by (apply Hfresh; left; reflexivity).
      cbn [bind].
      specialize (IH (S (S k))
                    {| accepted := accepted st ++ [c];
                       dup_energy := dup_energy st; dup_rms := dup_rms st |}
                    (update om c (reset_obj rotmatches c))).
      cbn [accepted dup_energy dup_rms] in IH. apply IH; auto; try lia.
      * intros c' Hc' Hin. apply in_app_or in Hin. destruct Hin as [Hin|Hin].
        -- apply (Hfresh c'); [right; exact Hc' | exact Hin].
        -- destruct Hin as [->|[]]. contradiction.
      * apply Forall_app. split; auto.
    + cbn [bind].
      specialize (IH (S (S k))
                    {| accepted := accepted st;
                       dup_energy := dup_energy st;
                       dup_rms := (dup_rms st + 1)%Z |}
                    (update om c (reset_obj rotmatches c))).
      cbn [accepted dup_energy dup_rms] in IH. apply IH; auto; try lia.
      intros c' Hc'. apply Hfresh. right. exact Hc'.
Qed.

Lemma rmsfilter_greedy (args : Args) (rotmatches : list dihedral)
      (cenergy : list Q) (outmols0 : list molobj) (l : list nat) :
  NoDup l -> Forall (in_range cenergy) l -> Forall (in_range outmols0) l ->
  rmsfilter args rotmatches cenergy l outmols0 =
  Ok (accepted (stageB args rotmatches cenergy outmols0 l),
      dup_rms (stageB args rotmatches cenergy outmols0 l),
      reset_all rotmatches l outmols0).
Proof.
  intros Hnd Hr Hr0. destruct l as [|c r].
  - reflexivity.
  - inversion Hnd as [|? ? Hc Hnd']; subst.
    inversion Hr as [|? ? Hcr Hr']; subst.
    inversion Hr0 as [|? ? Hc0 Hr0']; subst.
    unfold rmsfilter. rewrite enumerate_cons. cbn [for_each].
    unfold rmsfilter_body at 1.
    rewrite (reset_torsions_update rotmatches Hc0). cbn [bind Nat.eqb app].
    destruct (nth_error outmols0 c) as [o|] eqn:Eo;
      [|apply nth_error_None in Eo; unfold in_range in Hc0; lia].
    assert (H1 : nth_error (update outmols0 c (reset_obj rotmatches c)) c
                 = Some (reset_obj rotmatches c o))
      by (apply nth_error_update_eq; exact Eo).
    rewrite (@rms_seen_scan args rotmatches cenergy outmols0 _ c o [c] Hcr
               (Forall_cons _ Hcr (Forall_nil _)) Eo H1).
    cbn [bind scan]. unfold stageB. cbn [reset_all fold_left].
    fold (reset_all rotmatches r (update outmols0 c (reset_obj rotmatches c))).
    pose proof (@rmsfilter_tail args rotmatches cenergy outmols0 r 1
                  (stageB_first args rotmatches cenergy outmols0 c)
                  (update outmols0 c (reset_obj rotmatches c))) as T.
    unfold stageB_first in *. cbn [accepted dup_rms dup_energy] in T.
    assert (Hpre :
      for_each (combine (seq 1 (length r)) r)
        (rmsfilter_body args rotmatches cenergy)
        ([c],
         match cmpB args rotmatches cenergy outmols0 c c with
         | Unique => (-1)%Z
         | _ => 0%Z
         end, update outmols0 c (reset_obj rotmatches c)) =
      Ok (accepted
            (greedy (cmpB args rotmatches cenergy outmols0) r
               {| accepted := [c]; dup_energy := 0;
                  dup_rms := match cmpB args rotmatches cenergy outmols0 c c with
                             | Unique => (-1)%Z
                             | _ => 0%Z
                             end |}),
          dup_rms
            (greedy (cmpB args rotmatches cenergy outmols0) r
               {| accepted := [c]; dup_energy := 0;
                  dup_rms := match cmpB args rotmatches cenergy outmols0 c c with
                             | Unique => (-1)%Z
                             | _ => 0%Z
                             end |}),
          reset_all rotmatches r (update outmols0 c (reset_obj rotmatches c)))).
    { apply T; auto.
      - intros c' Hc' [->|[]]. contradiction.
      - apply length_update.
      - intros c' Hc'. apply nth_error_update_neq. intros ->. contradiction. }
    destruct (cmpB args rotmatches cenergy outmols0 c c) eqn:E; cbn [bind].
    + replace (contains c [c]) with true
        by (symmetry; apply contains_In; left; reflexivity).
      cbn [bind]. exact Hpre.
    + exact Hpre.
    + exact Hpre.
Qed.

End StageBFacts.

(** ** Sorting by energy *)

Section SortFacts.

Variable A : Type.

Lemma insert_by_perm (kx : Q * A) (l : list (Q * A)) :
  Permutation (kx :: l) (insert_by kx l).
Proof.
  induction l as [|ky l IH]; simpl.
  - apply Permutation_refl.
  - destruct (Qltb (fst kx) (fst ky)).
    + apply Permutation_refl.
    + eapply perm_trans; [apply perm_swap|]. apply perm_skip. exact IH.
Qed.

Lemma insert_by_HdRel (kx a : Q * A) (l : list (Q * A)) :
  key_le a kx -> HdRel key_le a l -> HdRel key_le a (insert_by kx l).
Proof.
  intros Hax H. destruct l as [|ky l]; simpl.
  - constructor. exact Hax.
  - inversion H; subst. destruct (Qltb (fst kx) (fst ky)); constructor; auto.
Qed.

Lemma insert_by_sorted (kx : Q * A) (l : list (Q * A)) :
  Sorted key_le l -> Sorted key_le (insert_by kx l).
Proof.
  induction 1 as [|ky l HS IH HR]; simpl.
  - repeat constructor.
  - destruct (Qltb (fst kx) (fst ky)) eqn:E.
    + apply Qltb_lt in E. constructor.
      * constructor; assumption.
      * constructor. unfold key_le. lra.
    + apply Qltb_ge in E. constructor; [exact IH|].
      apply insert_by_HdRel; assumption.
Qed.

Lemma sort_fold_perm (l acc : list (Q * A)) :
  Permutation (acc ++ l) (fold_left (fun acc kx => insert_by kx acc) l acc).
Proof.
  revert acc. induction l as [|kx l IH]; intros acc; simpl.
  - rewrite app_nil_r. apply Permutation_refl.
  - eapply perm_trans; [|apply IH].
    eapply perm_trans; [apply Permutation_sym, Permutation_middle|].
    apply (Permutation_app_tail l (insert_by_perm kx acc)).
Qed.

Lemma sort_fold_sorted (l acc : list (Q * A)) :
  Sorted key_le acc ->
  Sorted key_le (fold_left (fun acc kx => insert_by kx acc) l acc).
Proof.
  revert acc. induction l as [|kx l IH]; intros acc H; simpl.
  - exact H.
  - apply IH. apply insert_by_sorted. exact H.
Qed.

Lemma sort_decorated_perm (l : list (Q * A)) :
  Permutation l (sort_decorated l).
Proof. apply (sort_fold_perm l []). Qed.

Lemma key_le_trans : Relations_1.Transitive (@key_le A).
Proof. intros a b c. unfold key_le. intros; lra. Qed.

Lemma sort_decorated_sorted (l : list (Q * A)) :
  StronglySorted key_le (sort_decorated l).
Proof.
  apply Sorted_StronglySorted; [exact key_le_trans|].
  apply sort_fold_sorted. constructor.
Qed.

End SortFacts.

Lemma decorate_map (cenergy : list Q) (cids : list nat) :
  Forall (in_range cenergy) cids ->
  decorate cenergy cids = Ok (map (fun c => (nth c cenergy 0, c)) cids).
Proof.
  induction 1 as [|c cids Hc Hr IH]; simpl.
  - reflexivity.
  - rewrite (index_nth cenergy 0 Hc). cbn [bind]. rewrite IH. reflexivity.
Qed.

Lemma StronglySorted_undecorate (cenergy : list Q) (d : list (Q * nat)) :
  Forall (fun kx => fst kx = nth (snd kx) cenergy 0) d ->
  StronglySorted key_le d ->
  energy_sorted cenergy (map snd d).
Proof.
  intros HF HS. unfold energy_sorted.
  induction HS as [|kx d HS IH HA]; simpl.
  - constructor.
  - inversion HF as [|? ? Hk HF']; subst. constructor; [apply IH; exact HF'|].
    apply Forall_map. rewrite Forall_forall in *.
    intros ky Hy. specialize (HA ky Hy). unfold key_le in HA.
    rewrite <- Hk, <- (HF' ky Hy). exact HA.
Qed.

(** [sorted(cids, key=lambda cid: cenergy[cid])] returns a permutation
    of the ids in non-decreasing energy order. *)
Lemma sorted_by_energy_spec (cenergy : list Q) (cids : list nat) :
  Forall (in_range cenergy) cids ->
  exists l, sorted_by_energy cenergy cids = Ok l
            /\ Permutation cids l /\ energy_sorted cenergy l.
Proof.
  intros H. unfold sorted_by_energy. rewrite (decorate_map H). cbn [bind].
  eexists. split; [reflexivity|].
  set (d := map (fun c => (nth c cenergy 0, c)) cids).
  assert (Hp : Permutation d (sort_decorated d)) by apply sort_decorated_perm.
  split.
  - replace cids with (map snd d).
    + apply Permutation_map. exact Hp.
    + unfold d. rewrite map_map. simpl. apply map_id.
  - apply StronglySorted_undecorate.
    + eapply Permutation_Forall; [exact Hp|].
      unfold d. apply Forall_map. apply Forall_forall. intros; reflexivity.
    + apply sort_decorated_sorted.
Qed.

Lemma subseq_energy_sorted (cenergy : list Q) (l1 l2 : list nat) :
  subseq l1 l2 -> energy_sorted cenergy l2 -> energy_sorted cenergy l1.
Proof.
  unfold energy_sorted. induction 1; intros HS; auto.
  - inversion HS; subst. auto.
  - inversion HS; subst. constructor; auto.
    eapply subseq_Forall; eauto.
Qed.

Lemma seq_in_range {A : Type} (l : list A) :
  Forall (in_range l) (seq 0 (length l)).
Proof.
  apply Forall_forall. intros c Hc. apply in_seq in Hc. unfold in_range. lia.
Qed.

Section EmbedFilterFacts.

Context {TK : Toolkit}.

Lemma stageA_subseq (args : Args) (cenergy : list Q) (l : list nat) :
  subseq (accepted (stageA args cenergy l)) l.
Proof.
  destruct l as [|c r]; simpl.
  - constructor.
  - destruct (greedy_subseq (cmpA args cenergy) r (stageA_first args c))
      as [l' [E S]].
    rewrite E. simpl. apply subseq_keep. exact S.
Qed.

Lemma stageB_subseq (args : Args) (rotmatches : list dihedral)
      (cenergy : list Q) (outmols : list molobj) (l : list nat) :
  subseq (accepted (stageB args rotmatches cenergy outmols l)) l.
Proof.
  destruct l as [|c r]; simpl.
  - constructor.
  - destruct (greedy_subseq (cmpB args rotmatches cenergy outmols) r
                (stageB_first args rotmatches cenergy outmols c))
      as [l' [E S]].
    rewrite E. simpl. apply subseq_keep. exact S.
Qed.





(** Both stages on ids that are distinct and in range. *)
Lemma embed_filter_spec (args : Args) (rotmatches : list dihedral)
      (cenergy : list Q) (outmols : list molobj) (l : list nat) :
  NoDup l -> Forall (in_range cenergy) l -> Forall (in_range outmols) l ->
  embed_filter args rotmatches cenergy outmols l =
  Ok (embed_outcome args rotmatches cenergy outmols l).
Proof.
  intros Hnd Hr Hr0. unfold embed_filter.
  rewrite (prefilter_greedy args Hnd Hr). cbn [bind].
  pose proof (stageA_subseq args cenergy l) as HS.
  rewrite (@rmsfilter_greedy TK args rotmatches cenergy outmols
             (accepted (stageA args cenergy l))).
  - reflexivity.
  - eapply subseq_NoDup; eauto.
  - eapply subseq_Forall; eauto.
  - eapply subseq_Forall; eauto.
Qed.




End EmbedFilterFacts.

(** ** The torsion grid *)








(** ** The enumerator *)



Section EnumeratorFacts.

Context {TK : Toolkit}.









End EnumeratorFacts.

(** ** The minimisation stage as a whole *)

Ltac bind_inv H :=
  let x := fresh "x" in
  let Hx := fresh "Hx" in
  apply bind_Ok in H; destruct H as [x [Hx H]].

Section MinAfterEmbedFacts.

Context {TK : Toolkit}.







Lemma Permutation_seq_NoDup (n : nat) (l : list nat) :
  Permutation (seq 0 n) l -> NoDup l.
Proof. intros H. eapply Permutation_NoDup; [exact H | apply seq_NoDup]. Qed.

Lemma Permutation_seq_in_range {A : Type} (ref : list A) (n : nat)
      (l : list nat) :
  length ref = n -> Permutation (seq 0 n) l -> Forall (in_range ref) l.
Proof.
  intros Hn H. eapply Permutation_Forall; [exact H|].
  rewrite <- Hn. apply seq_in_range.
Qed.


End MinAfterEmbedFacts.

(** ** The filter after rotation *)

Section RotationFacts.

Context {TK : Toolkit}.

Lemma GetProp_Energy_Ok (o : molobj) (e : Q) :
  GetProp_Energy o = Ok e -> prop_Energy o = Some e.
Proof.
  unfold GetProp_Energy. destruct (prop_Energy o); intros H;
    inversion H; reflexivity.
Qed.

Lemma GetProp_Name_Ok (o : molobj) (s : string) :
  GetProp_Name o = Ok s -> prop_Name o = Some s.
Proof.
  unfold GetProp_Name. destruct (prop_Name o); intros H;
    inversion H; reflexivity.
Qed.

(** The inner loop is the scan, when it returns. *)
Lemma rotation_seen_scan (args : Args) (x mol_rd : molobj)
      (seen : list (nat * molobj)) (v : Verdict) :
  geom mol_rd = geom x ->
  rotation_seen args x mol_rd seen = Ok v ->
  v = scan (cmpR args) x (map snd seen)
  /\ (seen <> [] -> prop_Energy x <> None).
Proof.
  intros Hg. induction seen as [|[j a] seen IH]; simpl; intros H.
  - inversion H. split; [reflexivity | congruence].
  - bind_inv H. bind_inv H.
    apply GetProp_Energy_Ok in Hx, Hx0.
    split; [|intros _; congruence].
    unfold cmpR at 1. rewrite Hx, Hx0. unfold cmpE. rewrite Hg in H.
    destruct (Qltb (E_diff x0 x1) (initial_energy_threshold args)).
    + inversion H. reflexivity.
    + destruct (Qltb (E_diff x0 x1) (energy_threshold args)); cbn [andb].
      * destruct (Qltb _ (rms_threshold args)).
        -- inversion H. reflexivity.
        -- apply IH. exact H.
      * apply IH. exact H.
Qed.


Lemma write_rotated_geom (args : Args) (o o' : molobj) (r : SDRecord) :
  write_rotated args o = Ok (o', r) ->
  exists g, (if metal_complex args then set_metal_back args (geom o)
             else Ok (geom o)) = Ok g.
Proof.
  unfold write_rotated. intros H. bind_inv H. eauto.
Qed.


Lemma subseq_seq_lt (l : list nat) (k i : nat) :
  subseq l (seq 0 k) -> In i l -> (i < k)%nat.
Proof.
  intros H Hi. eapply subseq_In in Hi; [|exact H].
  apply in_seq in Hi. lia.
Qed.

Lemma subseq_seq_snoc (l : list nat) (k : nat) :
  subseq l (seq 0 k) -> subseq (l ++ [k]) (seq 0 (S k)).
Proof.
  intros H. rewrite seq_S. simpl. apply subseq_snoc_keep. exact H.
Qed.

Lemma subseq_seq_skip (l : list nat) (k : nat) :
  subseq l (seq 0 k) -> subseq l (seq 0 (S k)).
Proof.
  intros H. rewrite seq_S. simpl. apply subseq_snoc_skip. exact H.
Qed.

Lemma rotation_body_inv (args : Args) (k : nat) (entry : option molobj)
      (st st' : RotState) :
  rot_inv args k st ->
  rotation_body args (k, entry) st = Ok st' ->
  rot_inv args (S k) st'.
Proof.
  intros [Hst Hcnt Hemp Hord Hrdy Hpw Hwr] H.
  unfold rotation_body in H.
  bind_inv H. destruct entry as [o|]; [|discriminate].
  inversion Hx; subst x. clear Hx.
  bind_inv H. rename x into name_i. apply GetProp_Name_Ok in Hx.
  bind_inv H. destruct x as [[mol_rd sel] written].
  destruct (rd_count st =? 0)%Z eqn:Ec.
  - (* the first entry *)
    apply Z.eqb_eq in Ec. destruct (Hemp Ec) as [Hsel ->].
    bind_inv Hx0. destruct x as [mol_rd' r].
    pose proof (write_rotated_geom _ _ Hx1) as Hg.
    inversion Hx0; subst mol_rd sel written. clear Hx0.
    rewrite Hsel in H. cbn [app] in H.
    bind_inv H. rename x into v.
    assert (He : prop_Energy o <> None).
    { unfold rotation_seen in Hx0. bind_inv Hx0.
      apply GetProp_Energy_Ok in Hx2. congruence. }
    assert (Hready : rotation_ready args o).
    { split; [congruence|]. split; [exact He | exact Hg]. }
    assert (Hfinal : forall de dr,
               rot_inv args 1
                 {| rd_count := 1; rd_selectedcids := [(O, o)];
                    rd_dup_energy := de; rd_dup_rms_eng := dr;
                    rd_written := rd_written st ++ [r] |}).
    { intros de dr. constructor; cbn [rd_count rd_selectedcids rd_written map fst snd].
      - congruence.
      - right; reflexivity.
      - intros; discriminate.
      - apply subseq_refl.
      - constructor; [exact Hready | constructor].
      - repeat constructor.
      - rewrite length_app, Hwr, Hsel. reflexivity. }
    destruct v.
    + cbn [map fst contains existsb Nat.eqb orb] in H.
      inversion H; subst. apply Hfinal.
    + inversion H; subst. apply Hfinal.
    + inversion H; subst. apply Hfinal.
  - (* a later entry *)
    apply Z.eqb_neq in Ec.
    inversion Hx0; subst mol_rd sel written. clear Hx0.
    bind_inv H. rename x into v.
    destruct (@rotation_seen_scan args o
                (SetProp_Name o (name_i ++ " " ++ str k))
                (rd_selectedcids st) v eq_refl Hx0) as [Hv He].
    specialize (He (Hst Ec)).
    assert (Hk : ~ In k (map fst (rd_selectedcids st))).
    { intros Hin. pose proof (@subseq_seq_lt _ _ _ Hord Hin). lia. }
    destruct v.
    + rewrite contains_not_In in H by exact Hk.
      bind_inv H. destruct x as [mol_rd' r].
      pose proof (write_rotated_geom _ _ Hx1) as Hg. cbn [geom SetProp_Name] in Hg.
      inversion H; subst. clear H.
      constructor; cbn [rd_count rd_selectedcids rd_written].
      * intros _. destruct (rd_selectedcids st); discriminate.
      * right; reflexivity.
      * intros; discriminate.
      * rewrite map_app. apply subseq_seq_snoc. exact Hord.
      * rewrite map_app. apply Forall_app. split; [exact Hrdy|].
        constructor; [|constructor]. cbn [snd].
        split; [rewrite Hx; discriminate|]. split; [exact He | exact Hg].
      * rewrite map_app. apply FOP_snoc. split; [exact Hpw|].
        apply scan_unique. symmetry. exact Hv.
      * rewrite !length_app, Hwr. reflexivity.
    + inversion H; subst. clear H.
      constructor; cbn [rd_count rd_selectedcids rd_written]; auto.
      * intros; discriminate.
      * apply subseq_seq_skip. exact Hord.
    + inversion H; subst. clear H.
      constructor; cbn [rd_count rd_selectedcids rd_written]; auto.
      * intros; discriminate.
      * apply subseq_seq_skip. exact Hord.
Qed.

Lemma rotation_loop_inv (args : Args) (r : list (option molobj)) :
  forall (k : nat) (st st' : RotState),
    rot_inv args k st ->
    for_each (combine (seq k (length r)) r) (rotation_body args) st = Ok st' ->
    rot_inv args (k + length r) st'.
Proof.
  induction r as [|entry r IH]; intros k st st' Hinv H; simpl in H.
  - inversion H; subst. rewrite Nat.add_0_r. exact Hinv.
  - bind_inv H. eapply rotation_body_inv in Hx; [|exact Hinv].
    eapply IH in H; [|exact Hx]. simpl length.
    replace (k + S (length r))%nat with (S k + length r)%nat by lia.
    exact H.
Qed.

Lemma rotation_init_inv (args : Args) : rot_inv args 0 rotation_init.
Proof.
  constructor; simpl; auto; try congruence; repeat constructor.
Qed.

(** A run of the filter after rotation that returns. *)
Lemma rotation_filter_inv (args : Args) (rdmols : list (option molobj))
      (st : RotState) :
  rotation_filter args rdmols = Ok st ->
  rot_inv args (length rdmols) st.
Proof.
  intros H. unfold rotation_filter, enumerate in H.
  eapply rotation_loop_inv in H; [|apply rotation_init_inv]. exact H.
Qed.



End RotationFacts.

(** ** The refinement stage *)

Section RefineFacts.

Context {TK : Toolkit}.

Lemma refine_seen_scan (args : Args) (m : molobj) (e : Q) (ce : list Q) :
  forall (om : list molobj) (k : nat),
    (k + length om = length ce)%nat ->
    refine_seen args m e ce (combine (seq k (length om)) om)
    = Ok (scan (cmpM args) (e, m) (combine (skipn k ce) om)).
Proof.
  induction om as [|a om IH]; intros k Hk.
  - simpl. destruct (skipn k ce); reflexivity.
  - cbn [length seq combine refine_seen].
    destruct (skipn k ce) as [|ek rest] eqn:Es.
    + apply (f_equal (@length Q)) in Es. rewrite length_skipn in Es.
      simpl in *. lia.
    + assert (Hi : index ce k = Ok ek).
      { apply index_Ok. rewrite <- (Nat.add_0_r k).
        rewrite <- nth_error_skipn. rewrite Es. reflexivity. }
      rewrite Hi. cbn [bind combine scan]. unfold cmpM at 1, cmpE.
      cbn [fst snd].
      assert (Hrest : skipn (S k) ce = rest).
      { replace (S k) with (1 + k)%nat by lia.
        rewrite <- skipn_skipn. rewrite Es. reflexivity. }
      specialize (IH (S k)). rewrite Hrest in IH.
      destruct (Qltb (E_diff e ek) (initial_energy_threshold args));
        [reflexivity|].
      destruct (Qltb (E_diff e ek) (energy_threshold args)); cbn [andb].
      * destruct (Qltb _ (rms_threshold args)); [reflexivity|].
        apply IH. simpl in Hk. lia.
      * apply IH. simpl in Hk. lia.
Qed.

Lemma refine_seen_kept (args : Args) (m : molobj) (e : Q) (st : MinState) :
  length (c_energy st) = length (outmols st) ->
  refine_seen args m e (c_energy st) (enumerate (outmols st))
  = Ok (scan (cmpM args) (e, m) (kept st)).
Proof.
  intros H. unfold enumerate, kept.
  rewrite (@refine_seen_scan args m e (c_energy st) (outmols st) 0);
    [reflexivity | simpl; lia].
Qed.

Lemma kept_snoc (st : MinState) (e : Q) (m : molobj) :
  length (c_energy st) = length (outmols st) ->
  combine (c_energy st ++ [e]) (outmols st ++ [m]) = kept st ++ [(e, m)].
Proof.
  unfold kept. generalize (outmols st).
  induction (c_energy st) as [|x ce IH]; intros [|y om] H; simpl in *;
    try discriminate; auto.
  f_equal. apply IH. lia.
Qed.

(** The [abs] of the window test does nothing: the running minimum is
    not above the energy. *)
Lemma new_globmin_le (gm : option Q) (e : Q) : new_globmin gm e <= e.
Proof.
  unfold new_globmin. destruct gm as [g|].
  - destruct (Qltb e g) eqn:E; [lra | apply Qltb_ge in E; exact E].
  - destruct (Qltb e e); lra.
Qed.



Lemma window_test (args : Args) (gm : option Q) (converged : Z) (e : Q) :
  (converged =? 0)%Z && Qltb (E_diff e (new_globmin gm e)) (ewin args) = false
  <-> window_rejected args (new_globmin gm e) converged e.
Proof.
  unfold window_rejected.
  pose proof (new_globmin_le gm e) as Hle.
  assert (Habs : E_diff e (new_globmin gm e) == e - new_globmin gm e).
  { unfold E_diff. apply Qabs_pos. lra. }
  rewrite (Qltb_comp Habs (Qeq_refl (ewin args))).
  destruct (converged =? 0)%Z eqn:Ec; cbn [andb].
  - apply Z.eqb_eq in Ec. rewrite Qltb_ge. split.
    + intros H. right. lra.
    + intros [H|H]; [congruence | lra].
  - apply Z.eqb_neq in Ec. split; auto.
Qed.

(** One conformer through the acceptance test. *)
Lemma refine_accept_step (args : Args) (m : molobj) (converged : Z) (e : Q)
      (st : MinState) :
  length (c_energy st) = length (outmols st) ->
  exists st',
    refine_accept args m converged e st = Ok st'
    /\ globmin st' = Some (new_globmin (globmin st) e)
    /\ (window_rejected args (new_globmin (globmin st) e) converged e ->
        n_high st' = (n_high st + 1)%Z
        /\ n_dup_energy st' = n_dup_energy st
        /\ n_dup_rms_eng st' = n_dup_rms_eng st
        /\ c_energy st' = c_energy st /\ outmols st' = outmols st)
    /\ (~ window_rejected args (new_globmin (globmin st) e) converged e ->
        n_high st' = n_high st
        /\ match scan (cmpM args) (e, m) (kept st) with
           | Unique =>
               n_dup_energy st' = n_dup_energy st
               /\ n_dup_rms_eng st' = n_dup_rms_eng st
               /\ c_energy st' = c_energy st ++ [e]
               /\ outmols st' = outmols st ++ [m]
           | EnergyDuplicate =>
               n_dup_energy st' = (n_dup_energy st + 1)%Z
               /\ n_dup_rms_eng st' = n_dup_rms_eng st
               /\ c_energy st' = c_energy st /\ outmols st' = outmols st
           | RmsDuplicate =>
               n_dup_energy st' = n_dup_energy st
               /\ n_dup_rms_eng st' = (n_dup_rms_eng st + 1)%Z
               /\ c_energy st' = c_energy st /\ outmols st' = outmols st
           end).
Proof.
  intros Hlen. unfold refine_accept.
  fold (new_globmin (globmin st) e).
  pose proof (window_test args (globmin st) converged e) as Hw.
  destruct ((converged =? 0)%Z
            && Qltb (E_diff e (new_globmin (globmin st) e)) (ewin args))
    eqn:Et.
  - assert (Hnot : ~ window_rejected args (new_globmin (globmin st) e)
                     converged e).
    { intros Hr. apply Hw in Hr. discriminate. }
    rewrite (refine_seen_kept args m e st Hlen). cbn [bind].
    destruct (scan (cmpM args) (e, m) (kept st)); eexists;
      (split; [reflexivity|]); cbn [globmin n_high n_dup_energy n_dup_rms_eng
                                     c_energy outmols];
      (split; [reflexivity|]); (split; [intros Hr; contradiction|]);
      intros _; auto.
  - assert (Hrej : window_rejected args (new_globmin (globmin st) e)
                     converged e) by (apply Hw; reflexivity).
    eexists. split; [reflexivity|].
    cbn [globmin n_high n_dup_energy n_dup_rms_eng c_energy outmols].
    split; [reflexivity|]. split; [auto|]. intros Hn. contradiction.
Qed.




(** The loop is the optimiser on the entries, then the acceptance test
    on what it returns. *)
Lemma refine_loop_factor
      (opt : molobj -> World -> result (molobj * Z * Q * World))
      (args : Args) (inmols : list (option molobj)) :
  forall (st : MinState) (w : World) (st' : MinState) (w' : World),
    for_each inmols (refine_body opt args) (st, w) = Ok (st', w') ->
    exists outs,
      optimised opt inmols w = Ok (outs, w')
      /\ accept_all args outs st = Ok st'.
Proof.
  induction inmols as [|entry inmols IH]; intros st w st' w' H; simpl in H.
  - inversion H; subst. exists []. split; reflexivity.
  - bind_inv H. destruct x as [st1 w1].
    destruct (IH _ _ _ _ H) as [outs [E1 E2]].
    destruct entry as [m|]; simpl in Hx.
    + bind_inv Hx. destruct x as [[[m1 c1] e1] w2].
      bind_inv Hx. inversion Hx; subst.
      exists ((m1, c1, e1) :: outs). cbn [optimised].
      rewrite Hx0. cbn [bind]. rewrite E1. cbn [bind].
      split; [reflexivity|].
      unfold accept_all. cbn [for_each fst snd]. rewrite Hx1. cbn [bind].
      exact E2.
    + inversion Hx; subst. exists outs. split; assumption.
Qed.


End RefineFacts.

(** * The claims *)

(** ** Sampler and embedding adapter *)

(** C6: the initial-sample estimator computes
    raw = 3 x rotatable bonds + 3 x polar-H donors + 3 x saturated rings and
    returns the multiplier when raw = 0 and multiplier x raw otherwise,
    the multiplier being multiplied by 3 x the number of metal centres
    first for a metal complex with at least one centre.  The function of
    the source takes the molecule and the options and nothing else, and
    its result is this function of the three counts, the metal data and
    the multiplier. *)
Theorem auto_sampling_estimate {TK : Toolkit} (mult_factor : Z) (m : mol)
        (args : Args) :
  auto_sampling mult_factor m args
  = estimate_initial_samples (NumRotatableBonds m) (NHOHCount m)
      (NumSaturatedRings m) (metal_complex args) (length (metal_idx args))
      mult_factor.
Proof.
  unfold auto_sampling, estimate_initial_samples.
  destruct (metal_complex args); cbn [andb].
  - destruct (length (metal_idx args)) as [|k] eqn:E.
    + cbn [Z.of_nat Z.ltb Nat.leb Z.compare].
      replace (0 + 3 * NumRotatableBonds m + 3 * NHOHCount m
               + 3 * NumSaturatedRings m)%Z
        with (3 * NumRotatableBonds m + 3 * NHOHCount m
              + 3 * NumSaturatedRings m)%Z by lia.
      reflexivity.
    + assert (H : (0 <? Z.of_nat (S k))%Z = true) by (apply Z.ltb_lt; lia).
      rewrite H. cbn [Nat.leb].
      replace (0 + 3 * NumRotatableBonds m + 3 * NHOHCount m
               + 3 * NumSaturatedRings m)%Z
        with (3 * NumRotatableBonds m + 3 * NHOHCount m
              + 3 * NumSaturatedRings m)%Z by lia.
      replace (mult_factor * 3 * Z.of_nat (S k))%Z
        with (mult_factor * (3 * Z.of_nat (S k)))%Z by lia.
      reflexivity.
  - replace (0 + 3 * NumRotatableBonds m + 3 * NHOHCount m
             + 3 * NumSaturatedRings m)%Z
      with (3 * NumRotatableBonds m + 3 * NHOHCount m
            + 3 * NumSaturatedRings m)%Z by lia.
    reflexivity.
Qed.

Lemma embedding_failed_iff (cids : list nat) (n : Z) :
  (length cids <= Z.to_nat n)%nat ->
  embedding_failed cids n = true
  <-> (length cids = 0%nat \/ (length cids = 1%nat /\ (1 < n)%Z)).
Proof.
  intros Hle. unfold embedding_failed.
  rewrite orb_true_iff, andb_true_iff, negb_true_iff.
  rewrite !Nat.eqb_eq, Z.eqb_neq. split.
  - intros [H|[H1 H2]]; [left; exact H | right; split; [exact H1 | lia]].
  - intros [H|[H1 H2]]; [left; exact H | right; split; [exact H1 | lia]].
Qed.

Lemma embed_conf_unfold {TK : Toolkit} (g : mol) (n : Z) (args : Args)
      (cm : option CoordMap) (am : option AlgMap) (mt : option mol)
      (w : World) :
  embed_conf g n args cm am mt w =
  let first := EmbedMultipleConfs g n (standard_params args cm) in
  let w1 := record_embed_call n (standard_params args cm) w in
  if embedding_failed (snd first) n then
    let second := EmbedMultipleConfs (fst first) n (random_coords_params args cm) in
    let w2 := record_embed_call n (random_coords_params args cm)
                (log_write (Log_embed_failed_trying_random n) w1) in
    (snd second, fst second,
     log_verbose args (Log_initially_generated (length (snd second))) w2)
  else
    (snd first, fst first,
     log_verbose args (Log_initially_generated (length (snd first))) w1).
Proof.
  unfold embed_conf, call_embed. cbv zeta.
  destruct cm as [c|], am as [a|], mt as [t|];
    match goal with
    | |- context [EmbedMultipleConfs g n ?p] =>
        destruct (EmbedMultipleConfs g n p) as [g1 cids] eqn:E1
    end; cbn [fst snd];
    destruct (embedding_failed cids n);
    try match goal with
    | |- context [EmbedMultipleConfs ?x n ?p] =>
        destruct (EmbedMultipleConfs x n p) as [g2 cids2] eqn:E2
    end; reflexivity.
Qed.

(** C8: the embedding adapter calls the engine once with the standard
    settings, and again, once, with random coordinates and a box size
    multiplier of 10, if and only if the first call returns no conformer
    id, or one id while more than one was asked for; what the last call
    returns is returned as it is, however many ids that is.  The engine
    is taken to return at most the number of ids asked for. *)
Theorem embed_conf_one_retry {TK : Toolkit} (g : mol) (n : Z) (args : Args)
        (cm : option CoordMap) (am : option AlgMap) (mt : option mol)
        (w : World) :
  let first := EmbedMultipleConfs g n (standard_params args cm) in
  let second := EmbedMultipleConfs (fst first) n (random_coords_params args cm) in
  let out := embed_conf g n args cm am mt w in
  (length (snd first) <= Z.to_nat n)%nat ->
  useRandomCoords (random_coords_params args cm) = true
  /\ boxSizeMult (random_coords_params args cm) = Some 10
  /\ useRandomCoords (standard_params args cm) = false
  /\ ((length (snd first) = 0%nat \/ (length (snd first) = 1%nat /\ (1 < n)%Z)) ->
      fst (fst out) = snd second
      /\ embed_calls (snd out)
         = embed_calls w ++ [(n, standard_params args cm);
                             (n, random_coords_params args cm)])
  /\ (~ (length (snd first) = 0%nat \/ (length (snd first) = 1%nat /\ (1 < n)%Z)) ->
      fst (fst out) = snd first
      /\ embed_calls (snd out) = embed_calls w ++ [(n, standard_params args cm)]).
Proof.
  intros first second out Hle.
  split; [reflexivity|]. split; [reflexivity|]. split; [reflexivity|].
  pose proof (embedding_failed_iff (snd first) n Hle) as Hiff.
  unfold out. rewrite embed_conf_unfold. fold first. cbv zeta. fold second.
  split.
  - intros Hretry. apply Hiff in Hretry. rewrite Hretry. cbn [fst snd].
    split; [reflexivity|].
    unfold log_verbose. destruct (verbose args); cbn; rewrite <- app_assoc;
      reflexivity.
  - intros Hno.
    destruct (embedding_failed (snd first) n) eqn:E.
    + exfalso. apply Hno. apply Hiff. reflexivity.
    + cbn [fst snd]. split; [reflexivity|].
      unfold log_verbose. destruct (verbose args); reflexivity.
Qed.

Lemma embed_conf_one_retry_witness :
  let out := embed_conf (TK := Toy.toolkit) Toy.pentane 6 Toy.args0
               None None None (init_world Toy.args0) in
  fst (fst out) = [0; 1; 2; 3; 4; 5]%nat
  /\ length (embed_calls (snd out)) = 1%nat.
Proof.
  assert (Hle : (length (snd (EmbedMultipleConfs (Toolkit := Toy.toolkit)
                                Toy.pentane 6
                                (standard_params Toy.args0 None)))
                 <= Z.to_nat 6)%nat)
    by (vm_compute; apply le_n).
  destruct (@embed_conf_one_retry Toy.toolkit Toy.pentane 6%Z Toy.args0
              None None None (init_world Toy.args0) Hle)
    as [_ [_ [_ [_ H]]]].
  destruct H as [H1 H2].
  - vm_compute. intros [H|[H _]]; discriminate H.
  - split.
    + rewrite H1. reflexivity.
    + rewrite H2. reflexivity.
Defined.

(** ** Torsion enumerator *)



(** ** The duplicate filter of the minimisation stage *)









(** ** No two accepted conformers are duplicates *)




(** ** Running the filter on its own output *)





(** ** The order in which candidates are examined *)

Lemma accept_all_subseq {TK : Toolkit} (args : Args)
      (outs : list (molobj * Z * Q)) :
  forall (st st' : MinState),
    length (c_energy st) = length (outmols st) ->
    accept_all args outs st = Ok st' ->
    length (c_energy st') = length (outmols st')
    /\ exists l', kept st' = kept st ++ l'
                  /\ subseq l' (map (fun o => (snd o, fst (fst o))) outs).
Proof.
  unfold accept_all.
  induction outs as [|[[m c] e] outs IH]; intros st st' Hlen H.
  - simpl in H. inversion H; subst. split; [exact Hlen|].
    exists []. rewrite app_nil_r. split; [reflexivity | constructor].
  - cbn [for_each fst snd] in H. bind_inv H. rename x into st1.
    destruct (@refine_accept_step TK args m c e st Hlen)
      as [st2 [E [_ [Hrej Hacc]]]].
    assert (st2 = st1) by congruence. subst st2.
    assert (Hstep : length (c_energy st1) = length (outmols st1)
                    /\ (kept st1 = kept st \/ kept st1 = kept st ++ [(e, m)])).
    { assert (Hk1 : kept st1 = combine (c_energy st1) (outmols st1))
        by reflexivity.
      assert (Hk0 : kept st = combine (c_energy st) (outmols st))
        by reflexivity.
      destruct (Z.eq_dec c 0) as [Hc|Hc].
      - destruct (Qlt_le_dec e (new_globmin (globmin st) e + ewin args))
          as [Hlt|Hge].
        + destruct Hacc as [_ Hcase];
            [unfold window_rejected; intros [?|?]; [contradiction | lra]|].
          destruct (scan (cmpM args) (e, m) (kept st));
            destruct Hcase as [_ [_ [Hce Hom]]]; rewrite Hk1, Hce, Hom.
          * rewrite !length_app. split; [simpl; lia|]. right.
            apply kept_snoc. exact Hlen.
          * split; [exact Hlen | left; symmetry; exact Hk0].
          * split; [exact Hlen | left; symmetry; exact Hk0].
        + destruct Hrej as [_ [_ [_ [Hce Hom]]]];
            [right; exact Hge|]. rewrite Hk1, Hce, Hom.
          split; [exact Hlen | left; symmetry; exact Hk0].
      - destruct Hrej as [_ [_ [_ [Hce Hom]]]];
          [left; exact Hc|]. rewrite Hk1, Hce, Hom.
        split; [exact Hlen | left; symmetry; exact Hk0]. }
    destruct Hstep as [Hlen1 Hk].
    destruct (IH _ _ Hlen1 H) as [Hlen' [l' [El Hs]]].
    split; [exact Hlen'|]. cbn [map fst snd].
    destruct Hk as [Hk|Hk]; rewrite Hk in El.
    + exists l'. split; [exact El | apply subseq_skip; exact Hs].
    + exists ((e, m) :: l'). rewrite <- app_assoc in El.
      split; [exact El | apply subseq_keep; exact Hs].
Qed.

(** C9, amended: the minimisation stage examines its candidates in
    non-decreasing energy order: the list its first loop runs over is the
    ids sorted by energy, and the list its second loop runs over is a
    subsequence of it.  The filter after rotation and the refinement
    stage examine the entries of their file in file order: what they
    accept is a subsequence of the file. *)
Theorem examination_order {TK : Toolkit} (args : Args) :
  (forall (rotmatches : list dihedral) (cenergy : list Q)
          (outmols : list molobj),
      length outmols = length cenergy ->
      exists l f,
        sorted_by_energy cenergy (seq 0 (length cenergy)) = Ok l
        /\ Permutation (seq 0 (length cenergy)) l
        /\ energy_sorted cenergy l
        /\ embed_filter args rotmatches cenergy outmols l = Ok f
        /\ subseq (selectedcids_initial f) l
        /\ energy_sorted cenergy (selectedcids_initial f)
        /\ subseq (selectedcids f) (selectedcids_initial f)
        /\ energy_sorted cenergy (selectedcids f))
  /\ (forall (rdmols : list (option molobj)) (st : RotState),
         rotation_filter args rdmols = Ok st ->
         subseq (map fst (rd_selectedcids st)) (seq 0 (length rdmols)))
  /\ (forall (opt : molobj -> World -> result (molobj * Z * Q * World))
             (inmols : list (option molobj)) (w : World)
             (st : MinState) (w' : World),
         refine_loop opt args inmols w = Ok (st, w') ->
         exists outs,
           optimised opt inmols w = Ok (outs, w')
           /\ accept_all args outs refine_init = Ok st
           /\ subseq (kept st) (map (fun o => (snd o, fst (fst o))) outs)).
Proof.
  split; [|split].
  - intros rotmatches cenergy outmols Hlen.
    destruct (@sorted_by_energy_spec cenergy (seq 0 (length cenergy)))
      as [l [El [Hperm Hsorted]]]; [apply seq_in_range|].
    exists l. eexists.
    split; [exact El|]. split; [exact Hperm|]. split; [exact Hsorted|].
    split.
    { apply embed_filter_spec.
      - eapply Permutation_seq_NoDup; eauto.
      - eapply Permutation_seq_in_range; eauto.
      - eapply Permutation_seq_in_range; eauto. }
    cbn [selectedcids_initial selectedcids embed_outcome].
    pose proof (stageA_subseq args cenergy l) as HsA.
    pose proof (stageB_subseq args rotmatches cenergy outmols
                  (accepted (stageA args cenergy l))) as HsB.
    split; [exact HsA|].
    split; [eapply subseq_energy_sorted; eauto|].
    split; [exact HsB|].
    eapply subseq_energy_sorted; [exact HsB|].
    eapply subseq_energy_sorted; eauto.
  - intros rdmols st H. apply rotation_filter_inv in H.
    destruct H as [_ _ _ Hord _ _ _]. exact Hord.
  - intros opt inmols w st w' H. unfold refine_loop in H.
    destruct (refine_loop_factor _ _ _ _ _ H) as [outs [E1 E2]].
    exists outs. split; [exact E1|]. split; [exact E2|].
    destruct (@accept_all_subseq TK args outs refine_init st eq_refl E2)
      as [_ [l' [El Hs]]].
    rewrite El. exact Hs.
Qed.

Lemma examination_order_witness :
  exists st,
    rotation_filter (TK := Toy.toolkit) Toy.args0
      [Some (Toy.sd_entry 0 (6 # 10)); Some (Toy.sd_entry 1 (2 # 10));
       Some (Toy.sd_entry 2 1)] = Ok st
    /\ subseq (map fst (rd_selectedcids st)) (seq 0 3).
Proof.
  eexists. split; [vm_compute; reflexivity|].
  destruct (@examination_order Toy.toolkit Toy.args0) as [_ [H _]].
  apply (H [Some (Toy.sd_entry 0 (6 # 10)); Some (Toy.sd_entry 1 (2 # 10));
            Some (Toy.sd_entry 2 1)]).
  vm_compute. reflexivity.
Defined.

(** C9 as stated fails for the filter after rotation: on a file with the
    energies 0.6, 0.2 and 1.0 and thresholds of 0.5 it keeps the first
    entry only, the one of energy 0.6; examined in energy order the
    entries of energies 0.2 and 1.0 would be kept, as they are when the
    file is in that order. *)
Lemma rotation_filter_in_file_order :
  (exists st,
      rotation_filter (TK := Toy.toolkit)
        (Toy.with_thresholds Toy.args0 (1 # 2) (1 # 2) (1 # 4))
        [Some (Toy.sd_entry 0 (6 # 10)); Some (Toy.sd_entry 1 (2 # 10));
         Some (Toy.sd_entry 2 1)] = Ok st
      /\ map (fun a => prop_Energy (snd a)) (rd_selectedcids st)
         = [Some (6 # 10)]
      /\ map fst (rd_selectedcids st) = [0%nat])
  /\ (exists st,
         rotation_filter (TK := Toy.toolkit)
           (Toy.with_thresholds Toy.args0 (1 # 2) (1 # 2) (1 # 4))
           [Some (Toy.sd_entry 1 (2 # 10)); Some (Toy.sd_entry 0 (6 # 10));
            Some (Toy.sd_entry 2 1)] = Ok st
         /\ map (fun a => prop_Energy (snd a)) (rd_selectedcids st)
            = [Some (2 # 10); Some 1]).
Proof.
  split.
  - eexists. split; [vm_compute; reflexivity|]. split; reflexivity.
  - eexists. split; [vm_compute; reflexivity|]. reflexivity.
Qed.

(** ** The energy window of the refinement stage *)





(** ** An optimisation that uses up its steps *)

(** When the trajectory of the xTB optimisation has [opt_steps + 1]
    frames, the local variable [converged] of [optimize] is never
    assigned, and reading it raises. *)
Lemma optimize_unconverged {TK : Toolkit} (args : Args) (m : molobj)
      (w : World) :
  metal_complex args = false ->
  BFGS_frames xtb
    (if nci_complex args then remove_iodine (geom m) else geom m) args
  = (opt_steps args + 1)%nat ->
  optimize args xtb m w = Raise (UnboundLocalError "converged").
Proof.
  intros Hm Hf. unfold optimize. rewrite Hm.
  cbn [andb bind set_traj traj]. rewrite Hf.
  rewrite (Nat.eqb_refl (opt_steps args + 1)). reflexivity.
Qed.

(** C5: when the xTB optimisation of the first conformer of the file
    stops at its step limit, the trajectory has [opt_steps + 1] frames
    and the refinement stage does not count and discard the conformer:
    [mult_min] leaves with [UnboundLocalError], whatever conformers
    follow in the file. *)
Theorem unconverged_refinement_raises {TK : Toolkit} (args : Args)
        (name : string) (w : World) (m : molobj)
        (rest : list (option molobj)) :
  metal_complex args = false ->
  SDMolSupplier (name ++ output args) w = Ok (Some m :: rest) ->
  BFGS_frames xtb
    (if nci_complex args then remove_iodine (geom m) else geom m) args
  = (opt_steps args + 1)%nat ->
  mult_min name args xtb w = Raise (UnboundLocalError "converged").
Proof.
  intros Hm Hsd Hf. unfold mult_min, mult_min_with.
  rewrite Hsd. cbn [bind]. unfold refine_loop.
  cbn [for_each refine_body snd].
  rewrite (optimize_unconverged args m _ Hm Hf). reflexivity.
Qed.

Lemma unconverged_refinement_raises_witness :
  exists w,
    summ_search (TK := Toy.toolkit) 10 Toy.pentane "pentane"
      (Toy.with_xtb Toy.args0 3 40) None None None
      (init_world Toy.args0) = Ok (1%Z, w)
    /\ mult_min "pentane_rdkit" (Toy.with_xtb Toy.args0 3 40) xtb w
       = Raise (UnboundLocalError "converged").
Proof.
  eexists. split; [vm_compute; reflexivity|].
  eapply (@unconverged_refinement_raises Toy.toolkit).
  - reflexivity.
  - vm_compute. reflexivity.
  - vm_compute. reflexivity.
Defined.

(** The whole pipeline on the five-carbon chain: with a limit of three
    steps, which the optimiser uses up, [conformer_generation] raises;
    with a limit of a thousand steps it returns and reports four unique
    conformers. *)
Lemma unconverged_pipeline_aborts :
  conformer_generation (TK := Toy.toolkit) 10 Toy.pentane "pentane" 0
    (Toy.with_xtb Toy.args0 3 40) None None None (init_world Toy.args0)
  = Raise (UnboundLocalError "converged")
  /\ exists w,
      conformer_generation (TK := Toy.toolkit) 10 Toy.pentane "pentane" 0
        (Toy.with_xtb Toy.args0 1000 40) None None None
        (init_world Toy.args0) = Ok w
      /\ dup_row w xTB_Unique_conformers = Some (CInt 4).
Proof.
  split; [vm_compute; reflexivity|].
  eexists. split; [vm_compute; reflexivity|]. reflexivity.
Qed.

(** ** Molecules over the torsion limit *)





